(** * Archyards crawler: a shallow embedding of the pipeline and its properties

    The development follows the four source files, after a module for the
    language itself:
    - [Py]        the few Python primitives the code relies on (exceptions,
                  [int()] on strings, list slicing, keyword-argument calls);
    - [Fetcher]   [fetcher.py]: the [Article] dataclass, [estimate_popularity]
                  and the selection part of [crawl_all];
    - [Rewriter]  [rewriter.py]: [rewrite] and [rewrite_batch] over an oracle
                  for the external text service;
    - [Scheduler] [scheduler.py]: [archive_previous], [mark_as_published],
                  [merge_with_published] and [run_pipeline];
    - [Api]       [api.py]: [get_articles] and the other endpoints;
    - [Crawler]   [fetcher.py]: [crawl_source] and the helpers it calls,
                  over an oracle for the feeds and pages of the network.

    Floats are modelled by canonical rationals ([Qc]): every score the
    pipeline stores is a finite float, and the order on finite floats is the
    order on the rationals they denote.  Conversions from [int] to [float]
    keep Python's overflow check. *)

From Stdlib Require Import Ascii String QArith Qcanon.
From stdpp Require Import gmap strings list sorting pretty.

Open Scope string_scope.
Open Scope Z_scope.
Open Scope list_scope.

(** ** Python primitives *)

Module Py.

(** The exception classes that occur in the modelled code. *)
Inductive exn :=
  | TypeError | ValueError | OverflowError | KeyError
  | OSError | APIError | JSONDecodeError | SelectorSyntaxError.

#[global] Instance exn_eq_dec : EqDecision exn.
Proof. solve_decision. Defined.

(** A call either returns a value or raises. *)
Inductive result (A : Type) :=
  | Ok (a : A)
  | Raise (e : exn).
Arguments Ok {A} a.
Arguments Raise {A} e.

#[global] Instance result_ret : MRet result := λ A a, Ok a.
#[global] Instance result_bind : MBind result := λ A B k r,
  match r with
  | Ok a => k a
  | Raise e => Raise e
  end.

(** A comprehension [[f(a) for a in l]] whose body may raise: the first
    exception aborts the comprehension. *)
Fixpoint for_each {A B} (f : A → result B) (l : list A) : result (list B) :=
  match l with
  | [] => Ok []
  | a :: l' => b ← f a; bs ← for_each f l'; Ok (b :: bs)
  end.

(** [try: body except E1, E2: pass] around a computation of a new value of
    the running state [s]. *)
Definition try_except {S} (caught : exn → bool) (s : S) (body : result S) : result S :=
  match body with
  | Ok s' => Ok s'
  | Raise e => if caught e then Ok s else Raise e
  end.

(** *** [int(s)] for a string [s]

    Python strips white space, reads an optional sign, and then wants decimal
    digits in which single underscores may separate digits.  Everything else
    is a [ValueError].  Strings are ASCII here. *)

Definition is_space (c : ascii) : bool :=
  let n := N_of_ascii c in
  ((9 <=? n) && (n <=? 13) || (n =? 32))%N.

Definition is_digit (c : ascii) : bool :=
  let n := N_of_ascii c in ((48 <=? n) && (n <=? 57))%N.

Definition digit_val (c : ascii) : Z := Z.of_N (N_of_ascii c) - 48.

Fixpoint lstrip (l : list ascii) : list ascii :=
  match l with
  | c :: l' => if is_space c then lstrip l' else l
  | [] => []
  end.

Definition strip (l : list ascii) : list ascii :=
  reverse (lstrip (reverse (lstrip l))).

Fixpoint parse_digits (acc : Z) (after_digit : bool) (l : list ascii) : option Z :=
  match l with
  | [] => if after_digit then Some acc else None
  | c :: l' =>
      if is_digit c then parse_digits (10 * acc + digit_val c) true l'
      else if decide (c = "_"%char) then
        if after_digit then parse_digits acc false l' else None
      else None
  end.

Definition int_of_str (s : string) : result Z :=
  let parsed :=
    match strip (list_ascii_of_string s) with
    | "+"%char :: l => parse_digits 0 false l
    | "-"%char :: l => Z.opp <$> parse_digits 0 false l
    | l => parse_digits 0 false l
    end in
  match parsed with
  | Some n => Ok n
  | None => Raise ValueError
  end.

(** [filter(str.isdigit, s)] joined back into a string. *)
Definition digits_of (s : string) : string :=
  string_of_list_ascii (List.filter is_digit (list_ascii_of_string s)).

(** *** [int] to [float]

    An [int] that takes part in float arithmetic is converted first, and the
    conversion raises [OverflowError] when the integer rounds to something
    beyond the largest double, [2^1024 - 2^971]: that is from
    [2^1024 - 2^970] on. *)
Definition float_limit : Z := 2 ^ 1024 - 2 ^ 970.

Definition float_of_int (n : Z) : result Qc :=
  if decide (Z.abs n < float_limit) then Ok (Q2Qc (inject_Z n))
  else Raise OverflowError.

(** [round(x, 2)], to the nearest hundredth, ties to even. *)
Definition round_half_even (q : Q) : Z :=
  let n := Qnum q in
  let d := Z.pos (Qden q) in
  let f := n `div` d in
  let r2 := 2 * (n `mod` d) in
  if decide (r2 < d) then f
  else if decide (d < r2) then f + 1
  else if Z.even f then f else f + 1.

Definition round2 (x : Qc) : Qc :=
  Q2Qc (round_half_even (x * Q2Qc 100)%Qc # 100).

(** *** Slices

    [l[start:stop]]: a negative index counts from the end, and both ends are
    clamped to the list. *)
Definition slice_index (len i : Z) : Z :=
  if decide (i < 0) then Z.max 0 (len + i) else Z.min i len.

Definition slice {A} (l : list A) (start stop : Z) : list A :=
  let len := Z.of_nat (length l) in
  let lo := slice_index len start in
  let hi := slice_index len stop in
  take (Z.to_nat (hi - lo)) (drop (Z.to_nat lo) l).

(** *** Objects as dictionaries, and calls with keyword arguments *)

Inductive pyval :=
  | VStr (s : string)
  | VInt (n : Z)
  | VFloat (x : Qc)
  | VList (l : list string).

(** A [dict], in insertion order. *)
Definition pydict := list (string * pyval).

(** [dict] called with [mapping] unpacked as keyword arguments next to an
    explicit [key=value]: a keyword that is also a key of [mapping]
    is a [TypeError] (the call got multiple values for that keyword). *)
Definition dict_kwargs (mapping : pydict) (key : string) (value : pyval)
    : result pydict :=
  if decide (key ∈ mapping.*1) then Raise TypeError
  else Ok (mapping ++ [(key, value)]).

(** [d.get(key)] *)
Definition dict_get (d : pydict) (key : string) : option pyval :=
  (λ r, r.2.2) <$> list_find (λ kv, kv.1 = key) d.

(** [x or y] on optional values that are true whenever present. *)
Definition py_or {A} (x y : option A) : option A :=
  match x with
  | Some _ => x
  | None => y
  end.

(** ASCII [str.lower]. *)
Definition lower_char (c : ascii) : ascii :=
  let n := N_of_ascii c in
  if ((65 <=? n) && (n <=? 90))%N then ascii_of_N (n + 32) else c.

Definition lower (s : string) : string :=
  string_of_list_ascii (lower_char <$> list_ascii_of_string s).

(** Truth value of an optional string ([None] and the empty string are
    false). *)
Definition truthy (s : option string) : bool :=
  match s with
  | Some s => bool_decide (s ≠ EmptyString)
  | None => false
  end.

(** *** More of [str] and of the containers *)

(** [s.startswith(p)] *)
Fixpoint startswith (s p : string) : bool :=
  match p, s with
  | EmptyString, _ => true
  | String c p', String d s' => bool_decide (c = d) && startswith s' p'
  | String _ _, EmptyString => false
  end.

(** [needle in hay] *)
Fixpoint contains (needle hay : string) : bool :=
  startswith hay needle
  || match hay with
     | String _ hay' => contains needle hay'
     | EmptyString => false
     end.

(** [s[:n]] *)
Fixpoint str_take (n : nat) (s : string) : string :=
  match n, s with
  | S n', String c s' => String c (str_take n' s')
  | _, _ => EmptyString
  end.

(** [sep.join(l)] *)
Fixpoint join (sep : string) (l : list string) : string :=
  match l with
  | [] => EmptyString
  | [x] => x
  | x :: l' => x +:+ sep +:+ join sep l'
  end.

(** [sorted(l, key=key, reverse=True)]: stable, as [list.sort] is. *)
Fixpoint insert_by {A} (key : A → nat) (a : A) (l : list A) : list A :=
  match l with
  | [] => [a]
  | b :: l' =>
      if decide (key a < key b)%nat then b :: insert_by key a l' else a :: l
  end.

Definition sorted_desc {A} (key : A → nat) (l : list A) : list A :=
  foldr (insert_by key) [] l.

(** [s.strip()] on a string: the white space of [str] is wider than the one
    [int()] accepts (it has the separators 28 to 31, and 133 and 160 among
    the code points below 256). *)
Definition is_str_space (c : ascii) : bool :=
  let n := N_of_ascii c in
  ((9 <=? n) && (n <=? 13) || (28 <=? n) && (n <=? 32) || (n =? 133) || (n =? 160))%N.

Fixpoint str_lstrip (l : list ascii) : list ascii :=
  match l with
  | c :: l' => if is_str_space c then str_lstrip l' else l
  | [] => []
  end.

Definition str_strip (l : list ascii) : list ascii :=
  reverse (str_lstrip (reverse (str_lstrip l))).

(** [s.split(sep)] for a separator that is not empty, on lists of
    characters: the pieces between the occurrences of [sep], found from the
    left and not overlapping.  [skip] counts the characters of a separator
    that are still to be passed. *)
Fixpoint is_prefix (p l : list ascii) : bool :=
  match p, l with
  | [], _ => true
  | c :: p', d :: l' => bool_decide (c = d) && is_prefix p' l'
  | _ :: _, [] => false
  end.

Fixpoint split_from (sep : list ascii) (skip : nat) (piece l : list ascii)
    : list (list ascii) :=
  match l with
  | [] => [reverse piece]
  | c :: l' =>
      match skip with
      | S skip' => split_from sep skip' piece l'
      | O =>
          if is_prefix sep l
          then reverse piece :: split_from sep (length sep - 1) [] l'
          else split_from sep 0 (c :: piece) l'
      end
  end.

Definition split (sep l : list ascii) : list (list ascii) :=
  split_from sep 0 [] l.

(** [l.count(k)] *)
Definition count (k : string) (l : list string) : nat :=
  length (filter (λ x, x = k) l).

(** [collections.Counter(l)]: the keys in the order in which they first
    occur, each with the number of its occurrences. *)
Fixpoint count_up (k : string) (counter : list (string * nat))
    : list (string * nat) :=
  match counter with
  | [] => [(k, 1%nat)]
  | (k', n) :: counter' =>
      if decide (k' = k) then (k', S n) :: counter'
      else (k', n) :: count_up k counter'
  end.

Definition Counter (l : list string) : list (string * nat) :=
  foldl (λ counter k, count_up k counter) [] l.

(** [counter.most_common()] *)
Definition most_common (counter : list (string * nat)) : list (string * nat) :=
  sorted_desc snd counter.

End Py.

Import Py.

(** ** fetcher.py *)

Module Fetcher.

(** The [Article] dataclass.  The last three fields have defaults (two empty
    strings and ["pending"]), which is what [crawl_source] leaves them at. *)
Record Article := mkArticle {
  id : string;
  source_name : string;
  source_logo : string;
  original_title : string;
  original_description : string;
  url : string;
  image_url : string;
  published_at : string;
  category : string;
  tags : list string;
  popularity_score : Qc;
  comment_count : Z;
  rewritten_title : string;
  rewritten_description : string;
  status : string;
}.

#[global] Instance Article_eq_dec : EqDecision Article.
Proof. solve_decision. Defined.

(** *** Selection ([crawl_all], after the crawl loop) *)

(** [seen = set(); unique = []; for a in all_articles: ...] *)
Fixpoint dedupe (all_articles : list Article) (seen : gset string)
    (unique : list Article) : list Article :=
  match all_articles with
  | [] => unique
  | a :: rest =>
      if decide (id a ∈ seen) then dedupe rest seen unique
      else dedupe rest ({[id a]} ∪ seen) (unique ++ [a])
  end.

(** [unique.sort(key=lambda a: a.popularity_score, reverse=True)]: Python's
    sort is stable, also with [reverse=True], so records with equal scores
    keep their relative order.  A stable sort is determined by that; it is
    written here as insertion from the right, where an element moves past
    its successors only while they have a strictly greater score. *)
Fixpoint insert_desc (a : Article) (l : list Article) : list Article :=
  match l with
  | [] => [a]
  | b :: l' =>
      if decide (popularity_score a < popularity_score b)%Qc
      then b :: insert_desc a l'
      else a :: l
  end.

Definition sort_desc (l : list Article) : list Article :=
  foldr insert_desc [] l.

(** [for art in unique: if len(selected) >= top_n: break ...] *)
Fixpoint fill (top_n : Z) (unique selected : list Article)
    (source_count : gmap string nat) : list Article :=
  match unique with
  | [] => selected
  | art :: rest =>
      if decide (top_n ≤ Z.of_nat (length selected)) then selected
      else
        let count := default 0%nat (source_count !! source_name art) in
        if decide (count < 2)%nat
        then fill top_n rest (selected ++ [art])
               (<[source_name art := S count]> source_count)
        else fill top_n rest selected source_count
  end.

Definition select (all_articles : list Article) (top_n : Z) : list Article :=
  fill top_n (sort_desc (dedupe all_articles ∅ [])) [] ∅.

(** *** Scoring ([estimate_popularity]) *)

(** [time.struct_time], the parsed timestamps of a feed entry. *)
Record struct_time := mkTime {
  tm_year : Z; tm_mon : Z; tm_mday : Z;
  tm_hour : Z; tm_min : Z; tm_sec : Z;
  tm_wday : Z; tm_yday : Z; tm_isdst : Z;
}.

(** A feed entry, as far as scoring reads it. *)
Record Entry := mkEntry {
  published_parsed : option struct_time;
  updated_parsed : option struct_time;
}.

(** The parsed article page, as far as scoring reads it:
    [select_one sel] is the text of the first element that the CSS selector
    [sel] matches (the library raises on a selector it cannot parse), and
    [find_attr a] is the value of attribute [a] on the first element that
    carries it. *)
Record Soup := mkSoup {
  select_one : string → result (option string);
  find_attr : string → option string;
}.

(** An element of [SOURCES]. *)
Record Source := mkSource {
  name : string;
  rss : string;
  base_url : string;
  popularity_selector : option string;
  source_category : string;
  logo : string;
}.

Definition SOURCES : list Source :=
  [mkSource "Dezeen" "https://www.dezeen.com/feed/" "https://www.dezeen.com"
     None "architecture" "https://www.dezeen.com/favicon.ico";
   mkSource "ArchDaily" "https://www.archdaily.com/feed"
     "https://www.archdaily.com" (Some ".ad-comments-count") "architecture"
     "https://www.archdaily.com/favicon.ico";
   mkSource "Designboom" "https://www.designboom.com/feed/"
     "https://www.designboom.com" None "design"
     "https://www.designboom.com/favicon.ico";
   mkSource "Wallpaper" "https://www.wallpaper.com/rss"
     "https://www.wallpaper.com" None "design"
     "https://www.wallpaper.com/favicon.ico";
   mkSource "Architectural Digest"
     "https://www.architecturaldigest.com/feed/rss"
     "https://www.architecturaldigest.com" None "interior"
     "https://www.architecturaldigest.com/favicon.ico";
   mkSource "Archinect" "https://archinect.com/feed/news"
     "https://archinect.com" (Some ".comment-count") "architecture"
     "https://archinect.com/favicon.ico";
   mkSource "Frame Magazine" "https://www.frameweb.com/rss"
     "https://www.frameweb.com" None "interior"
     "https://www.frameweb.com/favicon.ico";
   mkSource "Metropolis" "https://metropolismag.com/feed/"
     "https://metropolismag.com" None "architecture"
     "https://metropolismag.com/favicon.ico"].

(** What the function takes from its surroundings: the clock, the local
    time conversion (which raises on a timestamp out of range) and the
    random jitter. *)
Record Clock := mkClock {
  time_time : Qc;
  mktime : struct_time → result Qc;
  uniform_0_5 : Qc;
}.

(** [max(0, x)] *)
Definition max0 (x : Qc) : Qc := if decide (0 < x)%Qc then x else 0%Qc.

Definition freshness (clk : Clock) (entry : Entry) (score : Qc) : result Qc :=
  match py_or (published_parsed entry) (updated_parsed entry) with
  | Some pub =>
      t ← mktime clk pub;
      let age_hours := ((time_time clk - t) / Q2Qc 3600)%Qc in
      Ok (score + max0 (Q2Qc 100 - age_hours))%Qc
  | None => Ok score
  end.

Definition comment_signal (soup : option Soup) (source : Source)
    (score : Qc) (comments : Z) : result (Qc * Z) :=
  match soup with
  | Some page =>
      if truthy (popularity_selector source) then
        el ← select_one page (default EmptyString (popularity_selector source));
        match el with
        | Some text =>
            try_except (λ e, bool_decide (e = ValueError)) (score, comments)
              (n ← int_of_str (digits_of text);
               x ← float_of_int (n * 2);
               Ok ((score + x)%Qc, n))
        | None => Ok (score, comments)
        end
      else Ok (score, comments)
  | None => Ok (score, comments)
  end.

Definition engagement_attrs : list string :=
  ["data-shares"; "data-reactions"; "data-likes"]%string.

Definition share_signal (page : Soup) (attr : string) (score : Qc) : result Qc :=
  match find_attr page attr with
  | Some value =>
      try_except (λ e, bool_decide (e = ValueError ∨ e = TypeError)) score
        (n ← int_of_str value;
         x ← float_of_int n;
         Ok (score + x * Q2Qc (1 # 2))%Qc)
  | None => Ok score
  end.

Fixpoint share_signals (page : Soup) (attrs : list string) (score : Qc)
    : result Qc :=
  match attrs with
  | [] => Ok score
  | attr :: rest =>
      score ← share_signal page attr score;
      share_signals page rest score
  end.

Definition estimate_popularity (clk : Clock) (entry : Entry)
    (soup : option Soup) (source : Source) : result (Qc * Z) :=
  let score := 0%Qc in
  let comments := 0 in
  score ← try_except (λ _, true) score (freshness clk entry score);
  '(score, comments) ← comment_signal soup source score comments;
  score ← match soup with
          | Some page => share_signals page engagement_attrs score
          | None => Ok score
          end;
  let score := (score + uniform_0_5 clk)%Qc in
  Ok (round2 score, comments).

(** *** The crawl ([crawl_all], the loop over [SOURCES]) *)

(** Every source is crawled inside [try/except Exception]; a source whose
    crawl raises contributes nothing.  The crawl itself is the network:
    [crawl_source] is what each source returned in this run. *)
Fixpoint crawl_loop (crawl_source : Source → result (list Article))
    (sources : list Source) (all_articles : list Article) : list Article :=
  match sources with
  | [] => all_articles
  | source :: rest =>
      match crawl_source source with
      | Ok articles => crawl_loop crawl_source rest (all_articles ++ articles)
      | Raise _ => crawl_loop crawl_source rest all_articles
      end
  end.

Definition crawl_all (crawl_source : Source → result (list Article))
    (top_n : Z) : list Article :=
  select (crawl_loop crawl_source SOURCES []) top_n.

(** *** Articles as JSON objects *)

(** [a.__dict__]: the fields of the dataclass, in declaration order. *)
Definition vars (a : Article) : pydict :=
  [("id", VStr (id a)); ("source_name", VStr (source_name a));
   ("source_logo", VStr (source_logo a));
   ("original_title", VStr (original_title a));
   ("original_description", VStr (original_description a));
   ("url", VStr (url a)); ("image_url", VStr (image_url a));
   ("published_at", VStr (published_at a)); ("category", VStr (category a));
   ("tags", VList (tags a)); ("popularity_score", VFloat (popularity_score a));
   ("comment_count", VInt (comment_count a));
   ("rewritten_title", VStr (rewritten_title a));
   ("rewritten_description", VStr (rewritten_description a));
   ("status", VStr (status a))]%string.

(** The JSON object of an article in the batch and store files: the fields
    of the dataclass, and the two keys that publication adds. *)
Record ArticleDict := mkDict {
  fields : Article;
  published_at_archyards : option string;
  badge : option string;
}.

#[global] Instance ArticleDict_eq_dec : EqDecision ArticleDict.
Proof. solve_decision. Defined.

Definition asdict (a : Article) : ArticleDict := mkDict a None None.

Definition get_str (d : pydict) (key : string) : string :=
  match dict_get d key with
  | Some (VStr s) => s
  | _ => EmptyString
  end.

(** The typed view of a dictionary with the keys of an article. *)
Definition of_dict (d : pydict) : ArticleDict :=
  mkDict
    (mkArticle (get_str d "id") (get_str d "source_name")
       (get_str d "source_logo") (get_str d "original_title")
       (get_str d "original_description") (get_str d "url")
       (get_str d "image_url") (get_str d "published_at")
       (get_str d "category")
       (match dict_get d "tags" with Some (VList l) => l | _ => [] end)
       (match dict_get d "popularity_score" with Some (VFloat x) => x | _ => 0%Qc end)
       (match dict_get d "comment_count" with Some (VInt n) => n | _ => 0 end)
       (get_str d "rewritten_title") (get_str d "rewritten_description")
       (get_str d "status"))
    ((λ v, match v with VStr s => s | _ => EmptyString end)
       <$> dict_get d "published_at_archyards")
    ((λ v, match v with VStr s => s | _ => EmptyString end)
       <$> dict_get d "badge").

Definition dict_id (d : ArticleDict) : string := id (fields d).
Definition dict_status (d : ArticleDict) : string := status (fields d).

(** [d["status"] = s] *)
Definition set_status (s : string) (d : ArticleDict) : ArticleDict :=
  let a := fields d in
  mkDict
    (mkArticle (id a) (source_name a) (source_logo a) (original_title a)
       (original_description a) (url a) (image_url a) (published_at a)
       (category a) (tags a) (popularity_score a) (comment_count a)
       (rewritten_title a) (rewritten_description a) s)
    (published_at_archyards d) (badge d).

(** [d["rewritten_title"] = t; d["rewritten_description"] = desc] *)
Definition set_rewritten (t desc : string) (d : ArticleDict) : ArticleDict :=
  let a := fields d in
  mkDict
    (mkArticle (id a) (source_name a) (source_logo a) (original_title a)
       (original_description a) (url a) (image_url a) (published_at a)
       (category a) (tags a) (popularity_score a) (comment_count a)
       t desc (status a))
    (published_at_archyards d) (badge d).

(** The number of selected items of one source. *)
Definition from_source (s : string) (l : list Article) : nat :=
  length (filter (λ a, source_name a = s) l).

(** Descending order of scores. *)
Definition score_ge (a b : Article) : Prop :=
  (popularity_score b ≤ popularity_score a)%Qc.

End Fetcher.

(** ** The storage directory and the run log *)

Module Storage.
Import Fetcher.

(** Lines of the log that mark the progress of a run. *)
Inductive event :=
  | Started
  | Archived (dest : string)
  | Crawling
  | TooFew (found : nat)
  | Saved (count : nat)
  | Rewriting
  | RewriteSkipped
  | Loaded (count : nat)
  | RewrittenSaved (count : nat)
  | Publishing
  | Complete (new total : nat).

(** The files under [storage/] ([None]: the file does not exist), the
    archive directory by file name, and the log written so far. *)
Record State := mkState {
  raw_file : option (list ArticleDict);
  rewritten_file : option (list ArticleDict);
  published_file : option (list ArticleDict);
  archive : gmap string (list ArticleDict);
  log : list event;
}.

(** A step of the run: it may change the files and the log, and it returns
    or raises. *)
Definition io (A : Type) : Type := State → result A * State.

#[global] Instance io_ret : MRet io := λ A a st, (Ok a, st).
#[global] Instance io_bind : MBind io := λ A B k m st,
  match m st with
  | (Ok a, st') => k a st'
  | (Raise e, st') => (Raise e, st')
  end.

Definition lift {A} (r : result A) : io A := λ st, (r, st).

Definition info (e : event) : io unit := λ st,
  (Ok (), mkState (raw_file st) (rewritten_file st) (published_file st)
            (archive st) (log st ++ [e])).

Definition write_raw (l : list ArticleDict) : io unit := λ st,
  (Ok (), mkState (Some l) (rewritten_file st) (published_file st)
            (archive st) (log st)).

Definition write_rewritten (l : list ArticleDict) : io unit := λ st,
  (Ok (), mkState (raw_file st) (Some l) (published_file st)
            (archive st) (log st)).

Definition write_published (l : list ArticleDict) : io unit := λ st,
  (Ok (), mkState (raw_file st) (rewritten_file st) (Some l)
            (archive st) (log st)).

Definition write_archive (dest : string) (l : list ArticleDict) : io unit := λ st,
  (Ok (), mkState (raw_file st) (rewritten_file st) (published_file st)
            (<[dest := l]> (archive st)) (log st)).

(** [open(path)] of a file that does not exist raises. *)
Definition read_raw : io (list ArticleDict) := λ st,
  match raw_file st with
  | Some l => (Ok l, st)
  | None => (Raise OSError, st)
  end.

End Storage.

(** ** rewriter.py *)

Module Rewriter.
Import Fetcher Storage.

(** One call to the text service, up to the parsed JSON object: the two
    keys of the answer when it has them, or the exception of the call. *)
Definition Service : Type :=
  ArticleDict → result (option string * option string).

Definition rewrite (service : Service) (article : ArticleDict)
    : result ArticleDict :=
  match service article with
  | Ok (title, description) =>
      let a := fields article in
      Ok (set_status "rewritten"
            (set_rewritten (default (original_title a) title)
               (default (original_description a) description) article))
  | Raise e =>
      if decide (e = JSONDecodeError ∨ e = APIError)
      then Ok (set_status "rewrite_failed" article)
      else Raise e
  end.

Definition rewrite_batch (service : Service) (articles : list ArticleDict)
    : result (list ArticleDict) :=
  for_each
    (λ article,
       if decide (dict_status article = "rewritten") then Ok article
       else rewrite service article)
    articles.

(** What [rewrite] hands to [json.loads], from the stripped text of the
    reply: the text between the first two code fences when the reply starts
    with one, without a leading [json], and stripped again.  [None] would be
    the [IndexError] of [raw.split(fence)[1]]. *)
Definition fence : list ascii := list_ascii_of_string "```".

Definition unfence (raw : list ascii) : option (list ascii) :=
  if is_prefix fence raw then
    raw ← split fence raw !! 1%nat;
    let raw :=
      if is_prefix (list_ascii_of_string "json") raw then drop 4 raw else raw in
    Some (str_strip raw)
  else Some (str_strip raw).

(** [run_rewriter], with the two paths the scheduler passes. *)
Definition run_rewriter (service : Service) : io (list ArticleDict) :=
  articles ← read_raw;
  _ ← info (Loaded (length articles));
  rewritten ← lift (rewrite_batch service articles);
  _ ← write_rewritten rewritten;
  _ ← info (RewrittenSaved (length rewritten));
  mret rewritten.

End Rewriter.

(** ** scheduler.py *)

Module Scheduler.
Import Fetcher Storage Rewriter.

(** [CONFIG] *)
Definition articles_per_day : Z := 5.
Definition min_articles : Z := 3.

(** What a run takes from outside the process. *)
Record World := mkWorld {
  api_key : option string;
  utc_date : string;
  utc_now : string;
  archive_io : option exn;
  crawl_source : Source → result (list Article);
  service : Service;
}.

Definition archive_name (date_str : string) : string :=
  "published_" +:+ date_str +:+ ".json".

(** [archive_previous]: nothing when the store file does not exist;
    [archive_io] is what creating the directory or copying the file raises,
    if either does. *)
Definition archive_previous (w : World) : io unit := λ st,
  match published_file st with
  | None => (Ok (), st)
  | Some pub =>
      match archive_io w with
      | Some e => (Raise e, st)
      | None =>
          let dest := archive_name (utc_date w) in
          (_ ← write_archive dest pub; info (Archived dest)) st
      end
  end.

(** Archival passes: there is no store yet, or nothing raises. *)
Definition archival_passes (w : World) (st : State) : Prop :=
  published_file st = None ∨ archive_io w = None.

(** The window of [merged[:150]]. *)
Definition retention : nat := 150.

(** [existing_ids] and [truly_new] of [merge_with_published]. *)
Definition existing_ids (existing : list ArticleDict) : gset string :=
  list_to_set (dict_id <$> existing).

Definition truly_new (new_articles existing : list ArticleDict)
    : list ArticleDict :=
  filter (λ a, dict_id a ∉ existing_ids existing) new_articles.

(** The body of [merge_with_published] once [existing] is loaded. *)
Definition merge (new_articles existing : list ArticleDict)
    : list ArticleDict :=
  let merged := truly_new new_articles existing ++ existing in
  take retention merged.

Definition merge_with_published (new_articles : list ArticleDict)
    : io (list ArticleDict) := λ st,
  let existing := default [] (published_file st) in
  (Ok (merge new_articles existing), st).

Definition stamp (now : string) (a : ArticleDict) : ArticleDict :=
  mkDict (fields (set_status "published" a)) (Some now) (Some "aggregated").

Definition mark_as_published (now : string) (articles : list ArticleDict)
    : list ArticleDict :=
  stamp now <$> articles.

(** [a.get("status") in ("rewritten", "pending")] *)
Definition eligible (a : ArticleDict) : Prop :=
  dict_status a = "rewritten" ∨ dict_status a = "pending".

#[global] Instance eligible_dec a : Decision (eligible a).
Proof. unfold eligible. apply _. Defined.

(** Step 4 of [run_pipeline] up to the merge, on a loaded store. *)
Definition to_publish (now : string) (rewritten : list ArticleDict)
    : list ArticleDict :=
  mark_as_published now (filter eligible rewritten).

Definition publish (now : string) (rewritten existing : list ArticleDict)
    : list ArticleDict :=
  merge (to_publish now rewritten) existing.

(** The branch of [run_pipeline] without an API key: every article goes
    through its [__dict__] and a JSON round trip (the identity on these
    values), and the result is unpacked into a [dict] call next to
    [status="pending"]. *)
Definition unrewritten (articles : list Article) : result (list ArticleDict) :=
  for_each
    (λ a, d ← dict_kwargs (vars a) "status" (VStr "pending"); Ok (of_dict d))
    articles.

Definition run_pipeline (w : World) : io (list ArticleDict) :=
  _ ← info Started;
  _ ← archive_previous w;
  _ ← info Crawling;
  let n := articles_per_day in
  let articles := crawl_all (crawl_source w) n in
  _ ← (if decide (Z.of_nat (length articles) < min_articles)
       then info (TooFew (length articles)) else mret ());
  _ ← write_raw (asdict <$> articles);
  _ ← info (Saved (length articles));
  _ ← info Rewriting;
  rewritten ←
    (if truthy (api_key w) then run_rewriter (service w)
     else _ ← info RewriteSkipped; lift (unrewritten articles));
  _ ← info Publishing;
  let new := to_publish (utc_now w) rewritten in
  merged ← merge_with_published new;
  _ ← write_published merged;
  _ ← info (Complete (length new) (length merged));
  mret new.

End Scheduler.

(** ** api.py *)

Module Api.
Import Fetcher.

(** The query parameters of [GET /api/articles], as sent. *)
Record Args := mkArgs {
  arg_category : option string;
  arg_badge : option string;
  arg_source : option string;
  arg_limit : option string;
  arg_offset : option string;
}.

(** The JSON answer. *)
Record Page := mkPage {
  total : Z;
  limit : Z;
  offset : Z;
  articles : list ArticleDict;
}.

(** [int(request.args.get(key, fallback))] *)
Definition int_arg (arg : option string) (fallback : Z) : result Z :=
  match arg with
  | Some s => int_of_str s
  | None => Ok fallback
  end.

Definition get_articles (published_file : option (list ArticleDict))
    (args : Args) : result Page :=
  let articles := default [] published_file in
  let articles :=
    if truthy (arg_category args)
    then filter (λ a, Some (category (fields a)) = arg_category args) articles
    else articles in
  let articles :=
    if truthy (arg_badge args)
    then filter (λ a, badge a = arg_badge args) articles
    else articles in
  let articles :=
    if truthy (arg_source args)
    then filter (λ a, Some (lower (source_name (fields a)))
                        = lower <$> arg_source args) articles
    else articles in
  requested ← int_arg (arg_limit args) 20;
  let limit := Z.min requested 100 in
  offset ← int_arg (arg_offset args) 0;
  let total := Z.of_nat (length articles) in
  let page := slice articles offset (offset + limit) in
  Ok (mkPage total limit offset page).

(** [load_published] *)
Definition load_published (published_file : option (list ArticleDict))
    : list ArticleDict :=
  default [] published_file.

(** The three filters of [get_articles] on one article. *)
Definition matches (args : Args) (a : ArticleDict) : Prop :=
  (truthy (arg_category args) →
     Some (category (fields a)) = arg_category args)
  ∧ (truthy (arg_badge args) → badge a = arg_badge args)
  ∧ (truthy (arg_source args) →
       Some (lower (source_name (fields a))) = lower <$> arg_source args).

#[global] Instance matches_dec args a : Decision (matches args a).
Proof. unfold matches. apply _. Defined.

(** [GET /api/articles/today]; [today] is the UTC date of the request. *)
Record Today := mkToday {
  today_count : nat;
  today_articles : list ArticleDict;
}.

Definition get_today (published_file : option (list ArticleDict))
    (today : string) : Today :=
  let articles := load_published published_file in
  let todays :=
    filter
      (λ a, startswith (default EmptyString (published_at_archyards a)) today)
      articles in
  mkToday (length todays) todays.

(** [GET /api/articles/<article_id>]: the article, or [None] for the 404
    answer. *)
Definition get_article (published_file : option (list ArticleDict))
    (article_id : string) : option ArticleDict :=
  let articles := load_published published_file in
  snd <$> list_find (λ a, dict_id a = article_id) articles.

(** [GET /api/sources] *)
Definition get_sources (published_file : option (list ArticleDict))
    : list (string * nat) :=
  let articles := load_published published_file in
  let counts := Counter ((λ a, source_name (fields a)) <$> articles) in
  most_common counts.

(** [GET /api/health] *)
Record Health := mkHealth {
  total_articles : nat;
  last_updated : option string;
}.

Definition health (published_file : option (list ArticleDict)) : Health :=
  let articles := load_published published_file in
  mkHealth (length articles) (head articles ≫= published_at_archyards).

End Api.

(** ** fetcher.py: the crawl of one source *)

Module Crawler.
Import Fetcher.

(** What [feedparser] gives for one entry.  [None] is a key the entry does
    not have ([hasattr] is false, [get] takes its default). *)
Record Tag := mkTag { term : option string }.
Record Media := mkMedia { media_url : option string }.
Record Enclosure := mkEnclosure {
  enclosure_type : option string;
  enclosure_href : option string;
}.

Record FeedEntry := mkFeedEntry {
  entry_link : option string;
  entry_title : option string;
  entry_summary : option string;
  entry_published : option string;
  entry_updated : option string;
  entry_tags : option (list Tag);
  entry_media_content : option (list Media);
  entry_enclosures : option (list Enclosure);
  entry_times : Entry;
}.

Record Feed := mkFeed {
  bozo : bool;
  entries : list FeedEntry;
}.

(** The parsed page of an article: what scoring reads of it, the texts of
    the elements a selector matches, and the [content] of the first
    [og:image] and [twitter:image] meta elements. *)
Record Document := mkDocument {
  scoring_view : Soup;
  select_texts : string → list string;
  og_image : option string;
  twitter_image : option string;
}.

(** The libraries and the network behind [crawl_source]: the feed of a
    source, [safe_get] followed by the parser ([None] when the request
    failed), the text of an HTML fragment, the [src] of its first [img],
    the date parser of [email.utils], the time of the call, the clock and
    jitter of the scoring of the [i]-th entry, and [hashlib.md5]. *)
Record Web := mkWeb {
  parse_feed : Source → Feed;
  safe_get : string → option Document;
  html_text : string → string;
  first_img_src : string → option string;
  parsedate_to_datetime : string → result string;
  now_isoformat : string;
  clock_at : nat → Clock;
  md5_hexdigest : string → string;
}.

(** The first image of [media_content] whose URL starts with [http]. *)
Fixpoint media_image (media : list Media) : option string :=
  match media with
  | [] => None
  | m :: rest =>
      if startswith (default EmptyString (media_url m)) "http"
      then media_url m
      else media_image rest
  end.

(** The [href] of the first enclosure with [image] in its type, whatever
    that [href] is. *)
Fixpoint enclosure_image (enclosures : list Enclosure) : option string :=
  match enclosures with
  | [] => None
  | enc :: rest =>
      if contains "image" (default EmptyString (enclosure_type enc))
      then Some (default EmptyString (enclosure_href enc))
      else enclosure_image rest
  end.

Definition page_image (doc : Document) : option string :=
  if truthy (og_image doc) then og_image doc
  else if truthy (twitter_image doc) then twitter_image doc
  else None.

Definition summary_image (web : Web) (summary : string) : option string :=
  match first_img_src web summary with
  | Some src => if startswith src "http" then Some src else None
  | None => None
  end.

Definition extract_image (web : Web) (entry : FeedEntry)
    (soup : option Document) : string :=
  match entry_media_content entry ≫= media_image with
  | Some image => image
  | None =>
      match entry_enclosures entry ≫= enclosure_image with
      | Some image => image
      | None =>
          match soup ≫= page_image with
          | Some image => image
          | None =>
              default EmptyString (entry_summary entry ≫= summary_image web)
          end
      end
  end.

Definition paragraph_selectors : list string :=
  ["article p"; ".entry-content p"; ".article-body p"; "p"].

(** [for sel in ...: paras = soup.select(sel); if paras: ...; break] *)
Fixpoint first_paragraphs (doc : Document) (selectors : list string)
    (raw : string) : string :=
  match selectors with
  | [] => raw
  | sel :: rest =>
      match select_texts doc sel with
      | [] => first_paragraphs doc rest raw
      | paras => join " " (take 5 paras)
      end
  end.

Definition extract_description (web : Web) (entry : FeedEntry)
    (soup : option Document) : string :=
  let raw := default EmptyString (entry_summary entry) in
  let raw :=
    match soup with
    | Some doc =>
        if decide (String.length raw < 100)%nat
        then first_paragraphs doc paragraph_selectors raw
        else raw
    | None => raw
    end in
  let clean := html_text web raw in
  str_take 1500 clean.

Definition parse_tags (entry : FeedEntry) : list string :=
  let tags := omap term (default [] (entry_tags entry)) in
  take 8 tags.

Definition article_id (web : Web) (source_name url : string) : string :=
  str_take 12 (md5_hexdigest web (source_name +:+ ":" +:+ url)).

(** [entry.get("published") or entry.get("updated") or ""] *)
Definition published_raw (entry : FeedEntry) : string :=
  if truthy (entry_published entry)
  then default EmptyString (entry_published entry)
  else if truthy (entry_updated entry)
  then default EmptyString (entry_updated entry)
  else EmptyString.

Definition published_iso (web : Web) (entry : FeedEntry) : string :=
  match parsedate_to_datetime web (published_raw entry) with
  | Ok iso => iso
  | Raise _ => now_isoformat web
  end.

(** The body of the loop over [feed.entries[:20]], for the entry at
    position [i]. *)
Definition crawl_entry (web : Web) (source : Source) (i : nat)
    (entry : FeedEntry) (url : string) : result Article :=
  let soup := safe_get web url in
  let title := default "Untitled" (entry_title entry) in
  let description := extract_description web entry soup in
  let image_url := extract_image web entry soup in
  '(popularity_score, comment_count) ←
    estimate_popularity (clock_at web i) (entry_times entry)
      (scoring_view <$> soup) source;
  let tags := parse_tags entry in
  let pub_dt := published_iso web entry in
  Ok (mkArticle (article_id web (name source) url) (name source) (logo source)
        title description url image_url pub_dt (source_category source) tags
        popularity_score comment_count EmptyString EmptyString "pending").

Fixpoint crawl_entries (web : Web) (source : Source) (i : nat)
    (entries : list FeedEntry) (articles : list Article)
    : result (list Article) :=
  match entries with
  | [] => Ok articles
  | entry :: rest =>
      let url := default EmptyString (entry_link entry) in
      if decide (url = EmptyString)
      then crawl_entries web source (S i) rest articles
      else
        art ← crawl_entry web source i entry url;
        crawl_entries web source (S i) rest (articles ++ [art])
  end.

Definition crawl_source (web : Web) (source : Source) : result (list Article) :=
  let feed := parse_feed web source in
  match bozo feed, entries feed with
  | true, [] => Ok []
  | _, _ => crawl_entries web source 0 (take 20 (entries feed)) []
  end.

(** What [crawl_entry] puts into every article of a source. *)
Definition crawled_from (web : Web) (source : Source) (a : Article) : Prop :=
  id a = article_id web (name source) (url a)
  ∧ source_name a = name source
  ∧ source_logo a = logo source
  ∧ category a = source_category source
  ∧ url a ≠ EmptyString
  ∧ (String.length (original_description a) ≤ 1500)%nat
  ∧ (length (tags a) ≤ 8)%nat
  ∧ 0 ≤ comment_count a
  ∧ rewritten_title a = EmptyString
  ∧ rewritten_description a = EmptyString
  ∧ status a = "pending".

(** The links of the entries that have one. *)
Definition links (entries : list FeedEntry) : list string :=
  filter (λ url, url ≠ EmptyString)
    ((λ entry, default EmptyString (entry_link entry)) <$> entries).

End Crawler.

(** ** Sample data *)

Module Samples.
Import Fetcher Storage Rewriter Scheduler Api.

Definition article (i s : string) (score : Z) : Article :=
  mkArticle i s "logo" "title" "description" "https://example.org/a" "img"
    "2026-01-01T00:00:00+00:00" "architecture" [] (Q2Qc (inject_Z score)) 0
    EmptyString EmptyString "pending".

(** The candidates of the selection scenario. *)
Definition scenario : list Article :=
  [article "A" "S1" 90; article "B" "S1" 80;
   article "C" "S1" 70; article "D" "S2" 60].

(** A published record and a rewritten candidate with a given id. *)
Definition published (i : string) : ArticleDict :=
  mkDict (fields (set_status "published" (asdict (article i "S1" 50))))
    (Some "2025-12-31T07:00:00+00:00") (Some "aggregated").

Definition candidate (i st : string) : ArticleDict :=
  set_status st (asdict (article i "S2" 50)).

(** A store with the ids [e1 .. en], [e1] first. *)
Definition store (n : nat) : list ArticleDict :=
  (λ k, published ("e" +:+ pretty k)) <$> seq 1 n.

(** A batch with one fresh article and one that is last in a full store. *)
Definition batch_at_cap : list ArticleDict :=
  [candidate "Y" "rewritten"; candidate "e150" "rewritten"].

(** A run: the first source returns the scenario candidates, the feeds of
    the others are down; the service answers every call with a new title. *)
Definition world (key : option string) (archive_error : option exn) : World :=
  mkWorld key "2026-01-01" "2026-01-01T07:00:00+00:00" archive_error
    (λ source, if decide (name source = "Dezeen") then Ok scenario
               else Raise OSError)
    (λ _, Ok (Some "New title", None)).

Definition fresh_state : State := mkState None None None ∅ [].

Definition state_with_store : State :=
  mkState None None (Some [published "X"]) ∅ [].

(** Scoring: the ArchDaily entry of [SOURCES], a frozen clock, an entry
    without timestamps, and pages that answer one selector or carry one
    attribute. *)
Definition dezeen : Source :=
  mkSource "Dezeen" "https://www.dezeen.com/feed/" "https://www.dezeen.com"
    None "architecture" "https://www.dezeen.com/favicon.ico".

Definition archdaily : Source :=
  mkSource "ArchDaily" "https://www.archdaily.com/feed"
    "https://www.archdaily.com" (Some ".ad-comments-count") "architecture"
    "https://www.archdaily.com/favicon.ico".

Definition clock : Clock :=
  mkClock (Q2Qc 1800000000) (λ _, Ok (Q2Qc 1799990000)) (Q2Qc (5 # 2)).

Definition undated : Entry := mkEntry None None.

Definition page_with_comments (text : string) : Soup :=
  mkSoup (λ sel, Ok (if decide (sel = ".ad-comments-count") then Some text else None))
    (λ _, None).

Definition page_with_shares (value : string) : Soup :=
  mkSoup (λ _, Ok None)
    (λ attr, if decide (attr = "data-shares") then Some value else None).

(** A run of 400 nines: a number no double can hold. *)
Definition nines : string := string_of_list_ascii (replicate 400 "9"%char).

(** [GET /api/articles?limit=-1] and [GET /api/articles?limit=500] *)
Definition negative_limit : Args := mkArgs None None None (Some "-1") None.
Definition large_limit : Args := mkArgs None None None (Some "500") None.

(** A feed of three entries, the second without a link; no page can be
    fetched, no date can be read. *)
Definition feed_entry (link : option string) : Crawler.FeedEntry :=
  Crawler.mkFeedEntry link (Some "A title") (Some "A short summary") None None
    (Some [Crawler.mkTag (Some "housing"); Crawler.mkTag None]) None None
    undated.

Definition offline_web : Crawler.Web :=
  Crawler.mkWeb
    (λ _, Crawler.mkFeed false
            [feed_entry (Some "https://example.org/1"); feed_entry None;
             feed_entry (Some "https://example.org/2")])
    (λ _, None) (λ html, html) (λ _, None) (λ _, Raise ValueError)
    "2026-01-01T07:00:00+00:00" (λ _, clock) (λ s, s).

(** The same feed, where every page shows a comment count of 400 digits. *)
Definition flooded_web : Crawler.Web :=
  Crawler.mkWeb
    (λ _, Crawler.mkFeed false
            [feed_entry (Some "https://example.org/1"); feed_entry None;
             feed_entry (Some "https://example.org/2")])
    (λ _, Some (Crawler.mkDocument (page_with_comments nines) (λ _, [])
                  None None))
    (λ html, html) (λ _, None) (λ _, Raise ValueError)
    "2026-01-01T07:00:00+00:00" (λ _, clock) (λ s, s).

End Samples.

(** * Properties *)

(** ** Selection *)

Module FetcherFacts.
Import Fetcher Samples.

Lemma dedupe_app all_articles : ∀ seen unique,
  ∃ k, dedupe all_articles seen unique = unique ++ k ∧ k `sublist_of` all_articles.
Proof.
  induction all_articles as [|a rest IH]; intros seen unique; simpl.
  - exists []. by rewrite app_nil_r.
  - case_decide.
    + destruct (IH seen unique) as (k & -> & Hk).
      exists k. split; [done|]. by apply sublist_cons.
    + destruct (IH ({[id a]} ∪ seen) (unique ++ [a])) as (k & -> & Hk).
      exists (a :: k). rewrite <- app_assoc. split; [done|].
      by apply sublist_skip.
Qed.

Lemma insert_desc_perm a l : insert_desc a l ≡ₚ a :: l.
Proof.
  induction l as [|b l IH]; simpl; [done|].
  case_decide; [|done]. rewrite IH. apply Permutation_swap.
Qed.

Lemma sort_desc_perm l : sort_desc l ≡ₚ l.
Proof.
  induction l as [|a l IH]; simpl; [done|].
  by rewrite insert_desc_perm, IH.
Qed.

#[local] Instance score_ge_trans : Transitive score_ge.
Proof. intros a b c Hab Hbc. unfold score_ge in *. by etrans. Qed.

Lemma insert_desc_sorted a l :
  StronglySorted score_ge l → StronglySorted score_ge (insert_desc a l).
Proof.
  induction 1 as [|b l Hl IH Hb]; simpl.
  - repeat constructor.
  - case_decide as Hlt.
    + constructor; [done|].
      rewrite insert_desc_perm. constructor; [|done].
      unfold score_ge. by apply Qclt_le_weak.
    + apply Qcnot_lt_le in Hlt.
      constructor; [by constructor|].
      constructor; [done|].
      eapply Forall_impl; [exact Hb|].
      intros c Hc. unfold score_ge in *. by etrans.
Qed.

Lemma sort_desc_sorted l : StronglySorted score_ge (sort_desc l).
Proof.
  induction l as [|a l IH]; simpl; [constructor|].
  by apply insert_desc_sorted.
Qed.

(** The sort is stable: the records of any one score keep their order. *)
Lemma insert_desc_stable q a l :
  filter (λ b, popularity_score b = q) (insert_desc a l)
  = filter (λ b, popularity_score b = q) (a :: l).
Proof.
  induction l as [|b l IH]; simpl; [done|].
  case_decide as Hlt; [|done].
  rewrite (filter_cons _ b), IH, !(filter_cons _ a), (filter_cons _ b).
  repeat case_decide; try done.
  exfalso. apply (Qclt_not_eq _ _ Hlt). congruence.
Qed.

Lemma sort_desc_stable q l :
  filter (λ b, popularity_score b = q) (sort_desc l)
  = filter (λ b, popularity_score b = q) l.
Proof.
  induction l as [|a l IH]; simpl; [done|].
  by rewrite insert_desc_stable, !filter_cons, IH.
Qed.

Lemma StronglySorted_sublist {A} (R : relation A) (k l : list A) :
  k `sublist_of` l → StronglySorted R l → StronglySorted R k.
Proof.
  induction 1 as [|x k l Hkl IH|x k l Hkl IH]; intros Hl.
  - constructor.
  - apply StronglySorted_inv in Hl as [Hl Hx].
    constructor; [by apply IH|].
    eapply Forall_forall. intros y Hy.
    eapply Forall_forall in Hx; [done|]. by eapply elem_of_sublist.
  - apply StronglySorted_inv in Hl as [Hl _]. by apply IH.
Qed.

Lemma from_source_snoc s l a :
  from_source s (l ++ [a]) =
  (from_source s l + if decide (source_name a = s) then 1 else 0)%nat.
Proof.
  unfold from_source. rewrite filter_app, length_app. f_equal.
  rewrite filter_cons, filter_nil. by case_decide.
Qed.

(** The loop invariant of the greedy fill: [source_count] counts the
    admitted items of every source, no count exceeds the cap, and the slate
    is within [top_n]. *)
Lemma fill_spec top_n unique : ∀ selected (source_count : gmap string nat),
  (∀ s, default 0%nat (source_count !! s) = from_source s selected) →
  (∀ s, (from_source s selected ≤ 2)%nat) →
  Z.of_nat (length selected) ≤ Z.max 0 top_n →
  ∃ k, fill top_n unique selected source_count = selected ++ k
       ∧ k `sublist_of` unique
       ∧ (∀ s, (from_source s (selected ++ k) ≤ 2)%nat)
       ∧ Z.of_nat (length (selected ++ k)) ≤ Z.max 0 top_n.
Proof.
  induction unique as [|art rest IH]; intros selected sc Hsc Hcap Hlen; simpl.
  - exists []. rewrite app_nil_r. by repeat split.
  - case_decide as Hfull.
    { exists []. rewrite app_nil_r. repeat split; [apply sublist_nil_l|done..]. }
    case_decide as Hcount.
    + destruct (IH (selected ++ [art])
                  (<[source_name art := S (default 0%nat (sc !! source_name art))]> sc))
        as (k & Hk & Hsub & Hcap' & Hlen').
      * intros s. rewrite from_source_snoc, lookup_insert.
        case_decide as Hs; simpl.
        -- subst s. rewrite Hsc. lia.
        -- rewrite Hsc. lia.
      * intros s. rewrite from_source_snoc. specialize (Hcap s).
        case_decide as Hs; [|lia]. subst s. rewrite Hsc in Hcount. lia.
      * rewrite length_app. simpl. lia.
      * exists (art :: k). rewrite Hk, <- app_assoc in *. simpl in *.
        repeat split; [by apply sublist_skip|done..].
    + destruct (IH selected sc Hsc Hcap Hlen) as (k & Hk & Hsub & Hcap' & Hlen').
      exists k. repeat split; [done|by apply sublist_cons|done..].
Qed.

Lemma select_sublist all_articles top_n :
  select all_articles top_n `sublist_of` sort_desc (dedupe all_articles ∅ []).
Proof.
  unfold select.
  destruct (fill_spec top_n (sort_desc (dedupe all_articles ∅ [])) [] ∅)
    as (k & -> & Hk & _); [done|intros s; unfold from_source; simpl; lia|simpl; lia|].
  done.
Qed.

(** C1, as the code has it: the selection is drawn from the candidates, has
    at most [max(top_n, 0)] items (so at most [top_n] for every
    non-negative [top_n]), at most 2 items of any source, and is in
    descending order of score. *)
Theorem select_guarantee (candidates : list Article) (top_n : Z) :
  select candidates top_n ⊆ candidates
  ∧ Z.of_nat (length (select candidates top_n)) ≤ Z.max 0 top_n
  ∧ (∀ s, (from_source s (select candidates top_n) ≤ 2)%nat)
  ∧ StronglySorted score_ge (select candidates top_n).
Proof.
  pose proof (select_sublist candidates top_n) as Hsub.
  unfold select in *.
  destruct (fill_spec top_n (sort_desc (dedupe candidates ∅ [])) [] ∅)
    as (k & Hk & _ & Hcap & Hlen);
    [done|intros s; unfold from_source; simpl; lia|simpl; lia|].
  rewrite Hk in *. simpl in *. repeat split; [|done..|].
  - intros a Ha. eapply elem_of_sublist in Ha; [|exact Hsub].
    rewrite sort_desc_perm in Ha.
    destruct (dedupe_app candidates ∅ []) as (u & Hu & Hsubu).
    rewrite Hu in Ha. simpl in Ha. by eapply elem_of_sublist.
  - eapply StronglySorted_sublist; [exact Hsub|apply sort_desc_sorted].
Qed.

(** *** Identity of the selected articles *)

Lemma dedupe_unique all_articles : ∀ (seen : gset string) unique,
  (∀ i, i ∈ seen ↔ i ∈ id <$> unique) →
  NoDup (id <$> unique) →
  NoDup (id <$> dedupe all_articles seen unique).
Proof.
  induction all_articles as [|a rest IH]; intros seen unique Hseen Hnd; simpl;
    [done|].
  case_decide as Hin; [by apply IH|].
  apply IH.
  - intros i. rewrite fmap_app, elem_of_app, elem_of_union, elem_of_singleton.
    simpl. rewrite list_elem_of_singleton, Hseen. tauto.
  - rewrite fmap_app. apply NoDup_app. split; [done|]. split.
    + intros i Hi ->%list_elem_of_singleton. by apply Hin, Hseen.
    + apply NoDup_singleton.
Qed.

(** No id is selected twice. *)
Lemma select_unique_ids (candidates : list Article) (top_n : Z) :
  NoDup (id <$> select candidates top_n).
Proof.
  eapply sublist_NoDup; [|apply fmap_sublist, select_sublist].
  rewrite sort_desc_perm. apply dedupe_unique; [|constructor].
  intros i. simpl. rewrite elem_of_nil. set_solver.
Qed.

(** The selection never holds two articles with one id. *)
Theorem selection_ids_distinct (candidates : list Article) (top_n : Z) :
  NoDup (id <$> select candidates top_n).
Proof. apply select_unique_ids. Qed.

(** C1 as stated fails for a negative [top_n]: the loop stops at once with
    an empty slate, whose size 0 is not at most [top_n]. *)
Lemma select_negative_top_n :
  select scenario (-1) = []
  ∧ ¬ (Z.of_nat (length (select scenario (-1))) ≤ -1).
Proof. split; [by vm_compute|]. vm_compute. by intros H. Qed.

(** The scenario of the specification: C is skipped, S1 has two items. *)
Lemma select_scenario : id <$> select scenario 3 = ["A"; "B"; "D"].
Proof. by vm_compute. Qed.

End FetcherFacts.

(** ** Publication and merge *)

Module SchedulerFacts.
Import Fetcher Storage Rewriter Scheduler Samples.

(** [merge_with_published] is [merge] on the store file, or on the empty
    store when there is no file; it changes nothing. *)
Lemma merge_with_published_reads new st :
  merge_with_published new st
  = (Ok (merge new (default [] (published_file st))), st).
Proof. done. Qed.

Lemma elem_of_existing_ids i existing :
  i ∈ existing_ids existing ↔ i ∈ dict_id <$> existing.
Proof. unfold existing_ids. by rewrite elem_of_list_to_set. Qed.

Lemma elem_of_truly_new a new existing :
  a ∈ truly_new new existing ↔ a ∈ new ∧ dict_id a ∉ dict_id <$> existing.
Proof.
  unfold truly_new. rewrite list_elem_of_filter, elem_of_existing_ids. tauto.
Qed.

Lemma truly_new_sublist new existing : truly_new new existing `sublist_of` new.
Proof. apply sublist_filter. Qed.

Lemma merge_length new existing : (length (merge new existing) ≤ 150)%nat.
Proof. unfold merge, retention. rewrite length_take. lia. Qed.

Lemma merge_no_cut new existing :
  (length (truly_new new existing ++ existing) ≤ 150)%nat →
  merge new existing = truly_new new existing ++ existing.
Proof. intros Hlen. unfold merge, retention. by apply take_ge. Qed.

(** A batch whose ids are all in the store adds nothing. *)
Lemma truly_new_nil new existing :
  truly_new new existing = [] ↔
  Forall (λ a, dict_id a ∈ dict_id <$> existing) new.
Proof.
  split.
  - intros Hnil. apply Forall_forall. intros a Ha.
    destruct (decide (dict_id a ∈ dict_id <$> existing)) as [|Hout]; [done|].
    assert (a ∈ truly_new new existing) as Hin by by apply elem_of_truly_new.
    rewrite Hnil in Hin. by apply elem_of_nil in Hin.
  - intros Hall. destruct (truly_new new existing) as [|a rest] eqn:Hnew; [done|].
    assert (a ∈ truly_new new existing) as Hin by (rewrite Hnew; left).
    apply elem_of_truly_new in Hin as [Hin Hout].
    rewrite Forall_forall in Hall. by apply Hall in Hin.
Qed.

Lemma merge_known_batch new existing :
  (length existing ≤ 150)%nat →
  Forall (λ a, dict_id a ∈ dict_id <$> existing) new →
  merge new existing = existing.
Proof.
  intros Hlen Hall. unfold merge, retention.
  apply truly_new_nil in Hall as ->. simpl. by apply take_ge.
Qed.

Lemma merge_fresh_head new existing a rest :
  truly_new new existing = a :: rest →
  merge new existing ≠ existing.
Proof.
  intros Hnew Heq. unfold merge, retention in Heq. rewrite Hnew in Heq.
  simpl in Heq.
  assert (a ∈ truly_new new existing) as Ha by (rewrite Hnew; left).
  apply elem_of_truly_new in Ha as [_ Ha]. apply Ha.
  apply list_elem_of_fmap_2. rewrite <- Heq. left.
Qed.

(** C2, as the code has it: a second merge with the same batch changes
    nothing exactly when every id of the batch is still in the store after
    the first merge, which is the case whenever the first merge cut
    nothing off. *)
Theorem merge_idempotent_iff (new existing : list ArticleDict) :
  (merge new (merge new existing) = merge new existing
   ↔ Forall (λ a, dict_id a ∈ dict_id <$> merge new existing) new)
  ∧ ((length (truly_new new existing ++ existing) ≤ 150)%nat →
     merge new (merge new existing) = merge new existing).
Proof.
  assert (Forall (λ a, dict_id a ∈ dict_id <$> merge new existing) new →
          merge new (merge new existing) = merge new existing) as Hif.
  { intros Hall. apply merge_known_batch; [apply merge_length|done]. }
  split; [split; [|done]|].
  - intros Heq. apply truly_new_nil.
    destruct (truly_new new (merge new existing)) as [|a rest] eqn:Hnew; [done|].
    by apply merge_fresh_head in Hnew.
  - intros Hlen. apply Hif. rewrite (merge_no_cut _ _ Hlen).
    apply Forall_forall. intros a Ha. rewrite fmap_app, elem_of_app.
    destruct (decide (dict_id a ∈ dict_id <$> existing)) as [|Hout]; [by right|].
    left. apply list_elem_of_fmap_2. by apply elem_of_truly_new.
Qed.

(** The scenario batch merged twice: nothing changes the second time. *)
Lemma merge_idempotent_scenario :
  let new := [candidate "X" "rewritten"; candidate "Y" "rewritten"] in
  let existing := [published "X"] in
  merge new (merge new existing) = merge new existing.
Proof.
  intros new existing.
  apply (proj2 (merge_idempotent_iff new existing)). vm_compute. lia.
Defined.

(** C2 as stated fails when the store is full: the batch brings one fresh
    article and one that is last in the store.  The first merge pushes the
    old record out, so the second merge takes it for a new one. *)
Lemma merge_twice_at_cap :
  let first := merge batch_at_cap (store 150) in
  let second := merge batch_at_cap first in
  dict_id <$> take 2 first = ["Y"; "e1"]
  ∧ dict_id <$> take 2 second = ["e150"; "Y"]
  ∧ second ≠ first.
Proof.
  intros first second. split; [by vm_compute|]. split; [by vm_compute|].
  intros Heq. apply (f_equal (λ l, dict_id <$> take 1 l)) in Heq.
  vm_compute in Heq. discriminate.
Qed.

(** C3: the result never has more than 150 records, and it is the front
    part of the new records followed by the store, so only the tail is
    dropped. *)
Theorem merge_retention (new existing : list ArticleDict) :
  (length (merge new existing) ≤ 150)%nat
  ∧ ∃ dropped,
      truly_new new existing ++ existing = merge new existing ++ dropped
      ∧ length dropped =
          (length (truly_new new existing ++ existing) - 150)%nat.
Proof.
  split; [apply merge_length|].
  exists (drop retention (truly_new new existing ++ existing)).
  unfold merge. by rewrite take_drop, length_drop.
Qed.

(** The retention scenario: 160 records after the merge, the 10 oldest go. *)
Lemma merge_retention_scenario :
  let new := (λ k, candidate ("n" +:+ pretty k) "rewritten") <$> seq 1 10 in
  dict_id <$> merge new (store 150)
  = (dict_id <$> new) ++ (dict_id <$> store 140).
Proof. by vm_compute. Qed.

(** Any number of merges keeps the store within the window. *)
Lemma merge_sequence_retention (batches : list (list ArticleDict)) existing :
  (length existing ≤ 150)%nat →
  (length (foldl (λ store new, merge new store) existing batches) ≤ 150)%nat.
Proof.
  revert existing. induction batches as [|new batches IH]; intros existing Hlen;
    simpl; [done|].
  apply IH, merge_length.
Qed.

(** From the first merge on, the store stays within the retention window,
    whatever batches follow. *)
Theorem merges_keep_retention (first : list ArticleDict)
    (batches : list (list ArticleDict)) (existing : list ArticleDict) :
  (length (foldl (λ store new, merge new store) (merge first existing) batches)
   ≤ 150)%nat.
Proof. apply merge_sequence_retention, merge_length. Qed.

(** C6: the new records that survive are those whose id is not in the store,
    in their order; the result is these followed by the store, within the
    retention window; and the scenario with X and Y. *)
Theorem merge_filters_and_prepends (new existing : list ArticleDict) :
  (∀ a, a ∈ truly_new new existing
        ↔ a ∈ new ∧ dict_id a ∉ dict_id <$> existing)
  ∧ truly_new new existing `sublist_of` new
  ∧ merge new existing = take 150 (truly_new new existing ++ existing)
  ∧ ((length (truly_new new existing ++ existing) ≤ 150)%nat →
     merge new existing = truly_new new existing ++ existing)
  ∧ (∀ x x' y, dict_id x = dict_id x' → dict_id y ≠ dict_id x' →
       merge [x; y] [x'] = [y; x']).
Proof.
  split; [intros a; apply elem_of_truly_new|].
  split; [apply truly_new_sublist|].
  split; [done|].
  split; [apply merge_no_cut|].
  intros x x' y Hx Hy. unfold merge, truly_new.
  rewrite filter_cons, decide_False; last first.
  { rewrite elem_of_existing_ids. simpl. rewrite Hx. intros Hout. apply Hout. left. }
  rewrite filter_cons, decide_True; last first.
  { rewrite elem_of_existing_ids. simpl. by intros Heq%list_elem_of_singleton. }
  done.
Qed.

Lemma merge_scenario :
  merge [candidate "X" "rewritten"; candidate "Y" "rewritten"] [published "X"]
  = [candidate "Y" "rewritten"; published "X"].
Proof.
  apply (merge_filters_and_prepends
           [candidate "X" "rewritten"; candidate "Y" "rewritten"]
           [published "X"]); [done|].
  by vm_compute.
Defined.

Lemma truly_new_ids_sublist new existing :
  dict_id <$> truly_new new existing `sublist_of` dict_id <$> new.
Proof. apply fmap_sublist, truly_new_sublist. Qed.

(** No id of a surviving new record is an id of the store. *)
Lemma truly_new_fresh new existing i :
  i ∈ dict_id <$> truly_new new existing → i ∉ dict_id <$> existing.
Proof.
  intros (a & -> & Ha)%list_elem_of_fmap.
  by apply elem_of_truly_new in Ha as [_ ?].
Qed.

Lemma merge_ids_sublist new existing :
  dict_id <$> merge new existing
  `sublist_of` (dict_id <$> truly_new new existing) ++ (dict_id <$> existing).
Proof. unfold merge. rewrite <- fmap_app. apply fmap_sublist, sublist_take. Qed.

(** C10, as the code has it: when the ids of the batch are pairwise distinct
    and the ids of the store are, the ids of the result are. *)
Theorem merge_unique_ids (new existing : list ArticleDict) :
  NoDup (dict_id <$> new) →
  NoDup (dict_id <$> existing) →
  NoDup (dict_id <$> merge new existing).
Proof.
  intros Hnew Hold.
  eapply sublist_NoDup; [|apply merge_ids_sublist].
  apply NoDup_app. split; [|split; [|done]].
  - eapply sublist_NoDup; [exact Hnew|apply truly_new_ids_sublist].
  - intros i. apply truly_new_fresh.
Qed.

Lemma merge_unique_ids_scenario :
  NoDup (dict_id <$>
           merge [candidate "X" "rewritten"; candidate "Y" "rewritten"]
             [published "X"]).
Proof.
  apply merge_unique_ids; compute_done.
Defined.

(** C10 as stated fails: the store has unique ids, the batch carries one id
    twice, and both records are kept. *)
Lemma merge_keeps_batch_duplicates :
  let new := [candidate "Y" "rewritten"; candidate "Y" "pending"] in
  NoDup (dict_id <$> @nil ArticleDict)
  ∧ dict_id <$> merge new [] = ["Y"; "Y"]
  ∧ ¬ NoDup (dict_id <$> merge new []).
Proof.
  intros new. split; [constructor|]. split; [by vm_compute|].
  vm_compute. intros Hnd. apply NoDup_cons in Hnd as [Hin _]. apply Hin. left.
Qed.

(** *** Eligibility *)

Lemma elem_of_to_publish now rewritten r :
  r ∈ to_publish now rewritten
  ↔ ∃ a, a ∈ rewritten ∧ eligible a ∧ r = stamp now a.
Proof.
  unfold to_publish, mark_as_published. rewrite list_elem_of_fmap.
  split.
  - intros (a & -> & [? ?]%list_elem_of_filter). eauto.
  - intros (a & ? & ? & ->). exists a. split; [done|].
    by apply list_elem_of_filter.
Qed.

Lemma eligible_not_failed a : eligible a → dict_status a ≠ "rewrite_failed".
Proof. by intros [Hs|Hs]; rewrite Hs. Qed.

Lemma to_publish_drops_failed now rewritten :
  to_publish now rewritten
  = to_publish now (filter (λ a, dict_status a ≠ "rewrite_failed") rewritten).
Proof.
  unfold to_publish. f_equal. rewrite list_filter_filter.
  apply list_filter_iff. intros a. split; [|tauto].
  intros Ha. split; [done|]. by apply eligible_not_failed.
Qed.

(** C5: the records published in a run are exactly the stamped copies of the
    batch records with status [rewritten] or [pending]; the batch without
    its [rewrite_failed] records gives the same output; and what the merge
    returns is made of store records and such stamped copies only. *)
Theorem rewrite_failed_excluded (now : string)
    (rewritten existing : list ArticleDict) :
  (∀ r, r ∈ to_publish now rewritten
        ↔ ∃ a, a ∈ rewritten
               ∧ (dict_status a = "rewritten" ∨ dict_status a = "pending")
               ∧ r = stamp now a)
  ∧ (∀ a, a ∈ rewritten → dict_status a = "rewrite_failed" →
          a ∉ filter eligible rewritten)
  ∧ to_publish now rewritten
    = to_publish now
        (filter (λ a, dict_status a ≠ "rewrite_failed") rewritten)
  ∧ publish now rewritten existing
    = publish now
        (filter (λ a, dict_status a ≠ "rewrite_failed") rewritten) existing
  ∧ (∀ r, r ∈ to_publish now rewritten →
          dict_status r = "published"
          ∧ published_at_archyards r = Some now
          ∧ badge r = Some "aggregated")
  ∧ (∀ r, r ∈ publish now rewritten existing →
          r ∈ existing
          ∨ ∃ a, a ∈ rewritten
                 ∧ (dict_status a = "rewritten" ∨ dict_status a = "pending")
                 ∧ r = stamp now a).
Proof.
  split; [intros r; apply elem_of_to_publish|].
  split.
  { intros a _ Hfailed [Hel _]%list_elem_of_filter.
    by apply eligible_not_failed in Hel. }
  split; [apply to_publish_drops_failed|].
  split; [unfold publish; by rewrite <- to_publish_drops_failed|].
  split.
  { intros r (a & _ & _ & ->)%elem_of_to_publish. done. }
  intros r Hr. unfold publish, merge in Hr.
  eapply elem_of_sublist in Hr; [|apply sublist_take].
  apply elem_of_app in Hr as [Hnew|Hold]; [right|by left].
  apply elem_of_truly_new in Hnew as [Hnew _].
  by apply elem_of_to_publish.
Qed.

(** A batch with one failed rewrite: only the other record is published. *)
Lemma rewrite_failed_scenario :
  dict_id <$> publish "2026-01-01T07:00:00+00:00"
                [candidate "F" "rewrite_failed"; candidate "Y" "rewritten"]
                [published "X"]
  = ["Y"; "X"].
Proof. by vm_compute. Qed.

End SchedulerFacts.

(** ** The pipeline run *)

Module PipelineFacts.
Import Fetcher Storage Rewriter Scheduler Samples.

(** The [__dict__] of every article has the key [status], so the call that
    adds [status="pending"] to it raises. *)
Lemma dict_kwargs_status a v : dict_kwargs (vars a) "status" v = Raise TypeError.
Proof. unfold dict_kwargs. rewrite decide_True; [done|]. simpl. set_solver. Qed.

Lemma unrewritten_cons a articles : unrewritten (a :: articles) = Raise TypeError.
Proof. unfold unrewritten. cbn [for_each]. by rewrite dict_kwargs_status. Qed.

Lemma unrewritten_nil : unrewritten [] = Ok [].
Proof. done. Qed.

Lemma archive_previous_passes w st :
  archival_passes w st →
  ∃ st', archive_previous w st = (Ok (), st')
         ∧ published_file st' = published_file st
         ∧ rewritten_file st' = rewritten_file st.
Proof.
  unfold archive_previous. intros [Hnone|Hok].
  - rewrite Hnone. eauto.
  - destruct (published_file st) as [pub|] eqn:Hpub; [|eauto].
    rewrite Hok. eexists. split; [done|]. by simpl.
Qed.

(** C4 on the code: without an API key, a run that selected at least one
    article raises [TypeError] in the branch that skips the rewrite; the
    store file is not written. *)
Theorem run_without_key_raises (w : World) (st : State) :
  truthy (api_key w) = false →
  crawl_all (crawl_source w) articles_per_day ≠ [] →
  archival_passes w st →
  ∃ st', run_pipeline w st = (Raise TypeError, st')
         ∧ published_file st' = published_file st
         ∧ last (log st') = Some RewriteSkipped.
Proof.
  intros Hkey Hsel Harch. unfold run_pipeline.
  destruct (archive_previous_passes w
              (mkState (raw_file st) (rewritten_file st) (published_file st)
                 (archive st) (log st ++ [Started])) Harch)
    as (st1 & Hst1 & Hpub1 & _).
  unfold mbind, io_bind at 1. simpl.
  unfold mbind, io_bind at 1. rewrite Hst1.
  destruct (crawl_all (crawl_source w) articles_per_day)
    as [|a articles] eqn:Hcrawl; [done|].
  rewrite Hkey. unfold lift. rewrite unrewritten_cons.
  case_decide; simpl; (eexists; split; [reflexivity|]); simpl;
    by rewrite ?last_snoc.
Qed.

Lemma run_without_key_scenario :
  ∃ st', run_pipeline (world None None) fresh_state = (Raise TypeError, st')
         ∧ published_file st' = None
         ∧ last (log st') = Some RewriteSkipped.
Proof.
  apply (run_without_key_raises (world None None) fresh_state).
  - reflexivity.
  - by vm_compute.
  - by left.
Defined.

(** The same run with a key publishes the selection. *)
Lemma run_with_key_scenario :
  let r := run_pipeline (world (Some "key") None) fresh_state in
  dict_id <$> default [] (published_file r.2) = ["A"; "B"; "D"]
  ∧ last (log r.2) = Some (Complete 3 3).
Proof. by vm_compute. Qed.

(** *** Unique ids across a run *)

Lemma io_bind_ok {A B} (m : io A) (k : A → io B) st b st' :
  (m ≫= k) st = (Ok b, st') →
  ∃ a st1, m st = (Ok a, st1) ∧ k a st1 = (Ok b, st').
Proof.
  unfold mbind, io_bind. destruct (m st) as [[a|e] st1]; [eauto|done].
Qed.

(** One step of a run that completed: the step returned, and the rest of the
    run went on from the state it left. *)
Tactic Notation "io_step" hyp(H) "as" simple_intropattern(a) ident(st) ident(Hm) :=
  apply io_bind_ok in H as (a & st & Hm & H).

(** A step that only writes a log line or a file. *)
Ltac io_log H :=
  apply io_bind_ok in H as ([] & ? & [= <-] & H).

Lemma rewrite_id service article article' :
  rewrite service article = Ok article' → dict_id article' = dict_id article.
Proof.
  unfold rewrite. destruct (service article) as [[title description]|e].
  - by intros [= <-].
  - case_decide; [by intros [= <-]|done].
Qed.

Lemma rewrite_batch_ids service articles rewritten :
  rewrite_batch service articles = Ok rewritten →
  dict_id <$> rewritten = dict_id <$> articles.
Proof.
  unfold rewrite_batch. revert rewritten.
  induction articles as [|a articles IH]; intros rewritten; cbn [for_each].
  - by intros [= <-].
  - case_decide as Hdone.
    + cbn [mbind result_bind].
      destruct (for_each _ articles) as [rest|] eqn:Hrest; [|done].
      cbn [mbind result_bind]. intros [= <-]. simpl. f_equal. by apply IH.
    + destruct (rewrite service a) as [a'|] eqn:Ha; [|done].
      cbn [mbind result_bind].
      destruct (for_each _ articles) as [rest|] eqn:Hrest; [|done].
      cbn [mbind result_bind]. intros [= <-]. simpl. f_equal.
      * by apply rewrite_id in Ha.
      * by apply IH.
Qed.

Lemma to_publish_ids now rewritten :
  dict_id <$> to_publish now rewritten `sublist_of` dict_id <$> rewritten.
Proof.
  unfold to_publish, mark_as_published.
  rewrite <- list_fmap_compose.
  replace (dict_id ∘ stamp now) with dict_id by done.
  apply fmap_sublist, sublist_filter.
Qed.

(** A run that completes leaves a store with pairwise distinct ids, if it
    found one, and within the retention window. *)
Lemma run_pipeline_store w st new st' :
  run_pipeline w st = (Ok new, st') →
  NoDup (dict_id <$> default [] (published_file st)) →
  ∃ merged, published_file st' = Some merged
            ∧ NoDup (dict_id <$> merged)
            ∧ (length merged ≤ 150)%nat.
Proof.
  intros Hrun Hnd. unfold run_pipeline in Hrun.
  io_log Hrun.
  io_step Hrun as [] st2 Harch.
  assert (published_file st2 = published_file st) as Hpub2.
  { unfold archive_previous in Harch. simpl in Harch.
    destruct (published_file st) as [pub|] eqn:Hpub; [|by injection Harch as <-].
    destruct (archive_io w); [done|]. by injection Harch as <-. }
  io_log Hrun. cbv zeta in Hrun.
  set (articles := crawl_all _ _) in Hrun.
  io_step Hrun as [] st4 Hfew.
  assert (published_file st4 = published_file st) as Hpub4.
  { destruct (decide _) in Hfew; injection Hfew as <-; by simpl. }
  do 3 io_log Hrun.
  io_step Hrun as rewritten st8 Hrw.
  assert (published_file st8 = published_file st
          ∧ dict_id <$> rewritten `sublist_of` id <$> articles) as [Hpub8 Hids].
  { destruct (truthy (api_key w)).
    - unfold run_rewriter in Hrw.
      io_step Hrw as l st9 Hread. injection Hread as <- <-.
      io_log Hrw.
      io_step Hrw as rw st11 Hbatch.
      unfold lift in Hbatch. injection Hbatch as Hbatch <-.
      do 2 io_log Hrw.
      injection Hrw as <- <-. simpl. split; [done|].
      apply rewrite_batch_ids in Hbatch. rewrite Hbatch, <- list_fmap_compose.
      done.
    - io_log Hrw.
      unfold lift in Hrw. injection Hrw as Hrw <-. simpl. split; [done|].
      destruct articles as [|a rest]; [|by rewrite unrewritten_cons in Hrw].
      injection Hrw as <-. done. }
  io_log Hrun. cbv zeta in Hrun.
  io_step Hrun as merged st10 Hmerge. injection Hmerge as <- <-.
  do 2 io_log Hrun.
  injection Hrun as <- <-. simpl. eexists. split; [done|].
  rewrite Hpub8. split; [|apply SchedulerFacts.merge_length].
  eapply sublist_NoDup; [|apply SchedulerFacts.merge_ids_sublist].
  apply NoDup_app. split; [|split; [apply SchedulerFacts.truly_new_fresh|done]].
  eapply sublist_NoDup; [|apply SchedulerFacts.truly_new_ids_sublist].
  eapply sublist_NoDup; [|apply to_publish_ids].
  eapply sublist_NoDup; [|exact Hids].
  apply FetcherFacts.select_unique_ids.
Qed.

(** A completed run writes a store that has pairwise distinct ids, if the
    store it found had, and that is within the retention window. *)
Theorem run_keeps_store_invariants (w : World) (st st' : State)
    (new : list ArticleDict) :
  run_pipeline w st = (Ok new, st') →
  NoDup (dict_id <$> default [] (published_file st)) →
  ∃ merged, published_file st' = Some merged
            ∧ NoDup (dict_id <$> merged)
            ∧ (length merged ≤ 150)%nat.
Proof. apply run_pipeline_store. Qed.

Lemma run_keeps_store_invariants_scenario :
  ∃ merged,
    published_file (run_pipeline (world (Some "key") None) state_with_store).2
    = Some merged
    ∧ NoDup (dict_id <$> merged)
    ∧ (length merged ≤ 150)%nat.
Proof.
  eapply (run_keeps_store_invariants (world (Some "key") None) state_with_store).
  - by vm_compute.
  - compute_done.
Defined.

(** *** Archival *)

Lemma archive_previous_no_store w st :
  published_file st = None → archive_previous w st = (Ok (), st).
Proof. intros Hnone. unfold archive_previous. by rewrite Hnone. Qed.

Lemma archive_previous_copies w st pub :
  published_file st = Some pub → archive_io w = None →
  archive_previous w st
  = (Ok (), mkState (raw_file st) (rewritten_file st) (published_file st)
              (<[archive_name (utc_date w) := pub]> (archive st))
              (log st ++ [Archived (archive_name (utc_date w))])).
Proof.
  intros Hpub Hok. unfold archive_previous. rewrite Hok.
  destruct st as [raw rw pb ar lg]. simpl in *. by subst pb.
Qed.

Lemma archive_previous_raises w st pub e :
  published_file st = Some pub → archive_io w = Some e →
  archive_previous w st = (Raise e, st).
Proof. intros Hpub He. unfold archive_previous. by rewrite Hpub, He. Qed.

(** C8, as the code has it: archival does nothing when there is no store
    yet and otherwise copies the store to the dated archive; an exception of
    the archival step is not caught, so the run ends with it right after
    its first log line, and no file is touched. *)
Theorem archival_failure_aborts (w : World) (st : State) :
  (published_file st = None → archive_previous w st = (Ok (), st))
  ∧ (∀ pub, published_file st = Some pub → archive_io w = None →
       ∃ st', archive_previous w st = (Ok (), st')
              ∧ archive st' !! archive_name (utc_date w) = Some pub
              ∧ published_file st' = Some pub)
  ∧ (∀ pub e, published_file st = Some pub → archive_io w = Some e →
       run_pipeline w st
       = (Raise e, mkState (raw_file st) (rewritten_file st)
                     (published_file st) (archive st) (log st ++ [Started]))).
Proof.
  split; [apply archive_previous_no_store|]. split.
  - intros pub Hpub Hok. rewrite (archive_previous_copies _ _ _ Hpub Hok).
    eexists. split; [done|]. simpl. by rewrite lookup_insert_eq.
  - intros pub e Hpub He. unfold run_pipeline.
    unfold mbind, io_bind at 1. simpl.
    unfold mbind, io_bind at 1.
    by rewrite (archive_previous_raises _ _ pub e).
Qed.

Lemma archival_failure_scenario :
  run_pipeline (world (Some "key") (Some OSError)) state_with_store
  = (Raise OSError,
     mkState None None (Some [published "X"]) ∅ [Started]).
Proof.
  by apply (archival_failure_aborts (world (Some "key") (Some OSError))
              state_with_store) with (pub := [published "X"]).
Defined.

(** C8 as stated fails: the copy raises, the run ends with that exception;
    the log has no line of the crawl, the rewrite or the publication, and
    the store is as it was. *)
Lemma archival_failure_stops_run :
  let r := run_pipeline (world (Some "key") (Some OSError)) state_with_store in
  r.1 = Raise OSError
  ∧ log r.2 = [Started]
  ∧ raw_file r.2 = None
  ∧ published_file r.2 = published_file state_with_store.
Proof. by vm_compute. Qed.

End PipelineFacts.

(** ** Scoring *)

Module ScoringFacts.
Import Fetcher Samples.

(** An entry without a parsed timestamp gets no freshness bonus. *)
Lemma freshness_undated clk entry score :
  published_parsed entry = None → updated_parsed entry = None →
  try_except (λ _, true) score (freshness clk entry score) = Ok score.
Proof. intros Hp Hu. unfold freshness. by rewrite Hp, Hu. Qed.

(** Nor does one whose timestamp the clock cannot convert. *)
Lemma freshness_unconvertible clk entry score pub e :
  py_or (published_parsed entry) (updated_parsed entry) = Some pub →
  mktime clk pub = Raise e →
  try_except (λ _, true) score (freshness clk entry score) = Ok score.
Proof. intros Hpub He. unfold freshness. by rewrite Hpub, He. Qed.

Lemma freshness_never_raises clk entry score :
  ∃ score', try_except (λ _, true) score (freshness clk entry score) = Ok score'.
Proof.
  unfold try_except. destruct (freshness clk entry score); eauto.
Qed.

(** A page without the element, or an element without a digit, leaves the
    comment count at 0 and the score as it was. *)
Lemma comment_signal_missing page source score :
  select_one page (default EmptyString (popularity_selector source)) = Ok None →
  comment_signal (Some page) source score 0 = Ok (score, 0).
Proof.
  intros Hsel. unfold comment_signal. case_match; [|done]. by rewrite Hsel.
Qed.

Lemma comment_signal_not_numeric page source score text :
  select_one page (default EmptyString (popularity_selector source))
  = Ok (Some text) →
  digits_of text = EmptyString →
  comment_signal (Some page) source score 0 = Ok (score, 0).
Proof.
  intros Hsel Hdigits. unfold comment_signal. case_match; [|done].
  rewrite Hsel. cbn [mbind result_bind]. by rewrite Hdigits.
Qed.

(** An attribute that is absent or does not read as an integer is skipped. *)
Lemma share_signal_absent page attr score :
  find_attr page attr = None → share_signal page attr score = Ok score.
Proof. intros Hattr. unfold share_signal. by rewrite Hattr. Qed.

Lemma share_signal_not_numeric page attr score value :
  find_attr page attr = Some value →
  int_of_str value = Raise ValueError →
  share_signal page attr score = Ok score.
Proof. intros Hattr Hint. unfold share_signal. by rewrite Hattr, Hint. Qed.

(** C7 on the code: a comment count that [int()] reads but that is beyond
    the range of a float makes the function raise [OverflowError], which the
    handler for [ValueError] lets through. *)
Theorem estimate_popularity_overflow (clk : Clock) (entry : Entry)
    (page : Soup) (source : Source) (sel text : string) (n : Z) :
  popularity_selector source = Some sel →
  sel ≠ EmptyString →
  select_one page sel = Ok (Some text) →
  int_of_str (digits_of text) = Ok n →
  float_limit ≤ Z.abs (n * 2) →
  estimate_popularity clk entry (Some page) source = Raise OverflowError.
Proof.
  intros Hsource Hsel Hel Hint Hbig. unfold estimate_popularity.
  destruct (freshness_never_raises clk entry 0%Qc) as [score ->].
  cbn [mbind result_bind]. unfold comment_signal.
  rewrite Hsource. cbn [truthy from_option Datatypes.id].
  rewrite bool_decide_eq_true_2 by done.
  rewrite Hel. cbn [mbind result_bind]. rewrite Hint. cbn [mbind result_bind].
  unfold float_of_int. rewrite decide_False by lia.
  done.
Qed.

Lemma estimate_popularity_overflow_scenario :
  estimate_popularity clock undated (Some (page_with_comments nines)) archdaily
  = Raise OverflowError.
Proof.
  apply (estimate_popularity_overflow clock undated (page_with_comments nines)
           archdaily ".ad-comments-count" nines (10 ^ 400 - 1)).
  - reflexivity.
  - done.
  - reflexivity.
  - by vm_compute.
  - by vm_compute.
Defined.

(** The sources of the two scenarios are entries of [SOURCES]. *)
Lemma scenario_sources : dezeen ∈ SOURCES ∧ archdaily ∈ SOURCES.
Proof. split; [left|right; left]. Qed.

(** The same happens on an engagement attribute. *)
Lemma share_signal_overflow :
  estimate_popularity clock undated (Some (page_with_shares nines)) dezeen
  = Raise OverflowError.
Proof. by vm_compute. Qed.

(** The selector is evaluated outside every handler: what the page library
    raises on it leaves the function. *)
Lemma selector_error_propagates clk entry page source sel e :
  popularity_selector source = Some sel →
  sel ≠ EmptyString →
  select_one page sel = Raise e →
  estimate_popularity clk entry (Some page) source = Raise e.
Proof.
  intros Hsource Hsel Hel. unfold estimate_popularity.
  destruct (freshness_never_raises clk entry 0%Qc) as [score ->].
  cbn [mbind result_bind]. unfold comment_signal.
  rewrite Hsource. cbn [truthy from_option Datatypes.id].
  rewrite bool_decide_eq_true_2 by done.
  by rewrite Hel.
Qed.

(** *** When scoring returns *)









(** With counts a float can hold, the function returns. *)
Lemma estimate_popularity_scenario :
  estimate_popularity clock undated (Some (page_with_comments "12 comments"))
    archdaily
  = Ok (Q2Qc (53 # 2), 12).
Proof. vm_compute. do 2 f_equal. by apply Qc_is_canon. Qed.

End ScoringFacts.

(** ** The listing endpoint *)

Module ApiFacts.
Import Fetcher Api Samples.

Lemma slice_length {A} (l : list A) (start stop : Z) :
  Z.of_nat (length (slice l start stop))
  ≤ Z.max 0 (slice_index (Z.of_nat (length l)) stop
             - slice_index (Z.of_nat (length l)) start).
Proof. unfold slice. rewrite length_take. lia. Qed.

(** A page is within the limit unless the limit is negative and the offset
    is not. *)
Lemma slice_window {A} (l : list A) (offset limit : Z) :
  0 ≤ limit ∨ offset < 0 →
  Z.of_nat (length (slice l offset (offset + limit))) ≤ Z.max 0 limit.
Proof.
  intros Hcase. etrans; [apply slice_length|].
  unfold slice_index. repeat case_decide; lia.
Qed.

(** The limit is capped at 100 and defaults to 20, and a page requested with
    a non-negative limit has at most 100 articles. *)
Lemma get_articles_limit file args page :
  get_articles file args = Ok page →
  limit page ≤ 100
  ∧ (arg_limit args = None → limit page = 20)
  ∧ (0 ≤ limit page ∨ offset page < 0 → (length (articles page) ≤ 100)%nat).
Proof.
  unfold get_articles.
  destruct (int_arg (arg_limit args) 20) as [requested|] eqn:Hlimit; [|done].
  destruct (int_arg (arg_offset args) 0) as [off|] eqn:Hoffset; [|done].
  cbn [mbind result_bind]. intros [= <-]. cbn [limit offset articles].
  split; [lia|]. split.
  - intros Hnone. rewrite Hnone in Hlimit. simpl in Hlimit. injection Hlimit as <-. lia.
  - intros Hcase. apply Nat2Z.inj_le.
    etrans; [apply slice_window; exact Hcase|]. lia.
Qed.

(** The limit of a page is at most 100 and is 20 when none is asked for; a
    page asked for with a limit that is not negative, or from an offset that
    is, has at most 100 articles. *)
Theorem listing_limit_cap (file : option (list ArticleDict)) (args : Args)
    (page : Page) :
  get_articles file args = Ok page →
  limit page ≤ 100
  ∧ (arg_limit args = None → limit page = 20)
  ∧ (0 ≤ limit page ∨ offset page < 0 → (length (articles page) ≤ 100)%nat).
Proof. apply get_articles_limit. Qed.

Lemma listing_limit_cap_scenario :
  let page := mkPage 150 100 0 (slice (store 150) 0 100) in
  limit page ≤ 100
  ∧ (arg_limit large_limit = None → limit page = 20)
  ∧ (0 ≤ limit page ∨ offset page < 0 → (length (articles page) ≤ 100)%nat).
Proof.
  intros page. apply (listing_limit_cap (Some (store 150)) large_limit page).
  by vm_compute.
Defined.

(** C9 on the code: with [limit=-1] the slice ends one before the end of
    the store, and the page holds 149 of its 150 articles. *)
Theorem negative_limit_page :
  ∃ page, get_articles (Some (store 150)) negative_limit = Ok page
          ∧ limit page = -1
          ∧ offset page = 0
          ∧ length (articles page) = 149%nat.
Proof. eexists. split; [by vm_compute|]. by vm_compute. Qed.

End ApiFacts.

(** ** Bounds of the score *)

Module ScoreBounds.
Import Fetcher.

Lemma is_digit_not_space c : is_digit c = true → is_space c = false.
Proof.
  unfold is_digit, is_space. intros Hd.
  apply andb_true_iff in Hd as [H1%N.leb_le H2%N.leb_le].
  apply orb_false_iff. split.
  - apply andb_false_iff. right. apply N.leb_gt. lia.
  - apply N.eqb_neq. lia.
Qed.

Lemma digit_val_nonneg c : is_digit c = true → 0 ≤ digit_val c.
Proof.
  unfold is_digit, digit_val. intros Hd.
  apply andb_true_iff in Hd as [H1%N.leb_le H2%N.leb_le]. lia.
Qed.

Lemma lstrip_digits l : Forall (λ c, is_digit c = true) l → lstrip l = l.
Proof.
  destruct 1 as [|c l Hc Hl]; [done|]. simpl.
  by rewrite (is_digit_not_space c Hc).
Qed.

Lemma strip_digits l : Forall (λ c, is_digit c = true) l → strip l = l.
Proof.
  intros Hl. unfold strip. rewrite (lstrip_digits l Hl).
  rewrite lstrip_digits; [by rewrite reverse_involutive|].
  by apply Forall_reverse.
Qed.

Lemma parse_digits_nonneg l : ∀ acc after n,
  Forall (λ c, is_digit c = true) l → 0 ≤ acc →
  parse_digits acc after l = Some n → 0 ≤ n.
Proof.
  induction l as [|c l IH]; intros acc after n Hl Hacc; simpl.
  - destruct after; [|done]. by intros [= <-].
  - apply Forall_cons in Hl as [Hc Hl]. rewrite Hc.
    apply IH; [done|]. pose proof (digit_val_nonneg c Hc). lia.
Qed.

Lemma digits_of_digits text :
  Forall (λ c, is_digit c = true) (list_ascii_of_string (digits_of text)).
Proof.
  unfold digits_of. rewrite list_ascii_of_string_of_list_ascii.
  apply Forall_forall. intros c Hc%list_elem_of_In.
  by apply filter_In in Hc as [_ Hc].
Qed.

(** What [int()] reads from the digits of a text is never negative. *)
Lemma int_of_digits_nonneg text n :
  int_of_str (digits_of text) = Ok n → 0 ≤ n.
Proof.
  unfold int_of_str. pose proof (digits_of_digits text) as Hd.
  rewrite (strip_digits _ Hd).
  destruct (list_ascii_of_string (digits_of text)) as [|c l] eqn:Hl.
  { simpl. done. }
  assert (c ≠ "+"%char ∧ c ≠ "-"%char) as [Hplus Hminus].
  { apply Forall_cons in Hd as [Hc _]. split; intros ->; discriminate Hc. }
  assert (parse_digits 0 false (c :: l) = Some n → 0 ≤ n) as Hparse.
  { by apply parse_digits_nonneg. }
  destruct c as [[] [] [] [] [] [] [] []]; try done;
    (destruct (parse_digits 0 false _) as [m|] eqn:Hm; [|done]);
    intros [= <-]; by apply Hparse.
Qed.

Lemma comment_signal_count soup source score score' comments :
  comment_signal soup source score 0 = Ok (score', comments) →
  comments = 0
  ∨ ∃ page sel text,
      soup = Some page ∧ popularity_selector source = Some sel
      ∧ select_one page sel = Ok (Some text)
      ∧ int_of_str (digits_of text) = Ok comments.
Proof.
  unfold comment_signal. destruct soup as [page|]; [|intros [= _ <-]; by left].
  destruct (popularity_selector source) as [sel|] eqn:Hsource;
    [|intros [= _ <-]; by left].
  cbn [truthy from_option Datatypes.id].
  case_bool_decide; [|intros [= _ <-]; by left].
  destruct (select_one page sel) as [[text|]|] eqn:Hel; cbn [mbind result_bind];
    [|intros [= _ <-]; by left|done].
  destruct (int_of_str (digits_of text)) as [n|e] eqn:Hn; cbn [mbind result_bind].
  - unfold float_of_int. case_decide; cbn [mbind result_bind try_except]; [|done].
    intros [= _ <-]. right. by exists page, sel, text.
  - cbn [try_except]. case_bool_decide; [|done]. intros [= _ <-]. by left.
Qed.

Lemma comment_count_nonneg clk entry soup source score comments :
  estimate_popularity clk entry soup source = Ok (score, comments) →
  0 ≤ comments.
Proof.
  unfold estimate_popularity.
  destruct (try_except _ _ _) as [score0|]; cbn [mbind result_bind]; [|done].
  destruct (comment_signal soup source score0 0) as [[score1 c]|] eqn:Hc;
    cbn [mbind result_bind]; [|done].
  destruct (match soup with Some page => _ | None => _ end) as [score2|];
    cbn [mbind result_bind]; [|done].
  intros [= _ <-].
  apply comment_signal_count in Hc as [->|(page & sel & text & _ & _ & _ & Hn)];
    [done|by eapply int_of_digits_nonneg].
Qed.

(** The comment count that scoring returns is 0 or the number that the
    digits of the selected element spell; it is never negative. *)
Theorem comment_count_read (clk : Clock) (entry : Entry) (soup : option Soup)
    (source : Source) (score : Qc) (comments : Z) :
  estimate_popularity clk entry soup source = Ok (score, comments) →
  0 ≤ comments
  ∧ (comments = 0
     ∨ ∃ page sel text,
         soup = Some page ∧ popularity_selector source = Some sel
         ∧ select_one page sel = Ok (Some text)
         ∧ int_of_str (digits_of text) = Ok comments).
Proof.
  unfold estimate_popularity.
  destruct (try_except _ _ _) as [score0|]; cbn [mbind result_bind]; [|done].
  destruct (comment_signal soup source score0 0) as [[score1 c]|] eqn:Hc;
    cbn [mbind result_bind]; [|done].
  destruct (match soup with Some page => _ | None => _ end) as [score2|];
    cbn [mbind result_bind]; [|done].
  intros [= _ <-]. apply comment_signal_count in Hc as Hread.
  split; [|done].
  destruct Hread as [->|(page & sel & text & _ & _ & _ & Hn)]; [done|].
  by eapply int_of_digits_nonneg.
Qed.

Lemma comment_count_read_scenario :
  0 ≤ 12
  ∧ (12 = 0
     ∨ ∃ page sel text,
         Some (Samples.page_with_comments "12 comments") = Some page
         ∧ popularity_selector Samples.archdaily = Some sel
         ∧ select_one page sel = Ok (Some text)
         ∧ int_of_str (digits_of text) = Ok 12).
Proof.
  apply (comment_count_read Samples.clock Samples.undated
           (Some (Samples.page_with_comments "12 comments")) Samples.archdaily
           (Q2Qc (53 # 2)) 12).
  vm_compute. do 2 f_equal. by apply Qc_is_canon.
Defined.









End ScoreBounds.

(** ** The crawl *)

Module CrawlFacts.
Import Fetcher Crawler.

Lemma select_subseteq all_articles top_n a :
  a ∈ select all_articles top_n → a ∈ all_articles.
Proof.
  intros Ha.
  eapply elem_of_sublist in Ha; [|apply FetcherFacts.select_sublist].
  rewrite FetcherFacts.sort_desc_perm in Ha.
  destruct (FetcherFacts.dedupe_app all_articles ∅ []) as (u & Hu & Hsub).
  rewrite Hu in Ha. by eapply elem_of_sublist.
Qed.

Lemma crawl_loop_app crawl sources : ∀ all_articles,
  crawl_loop crawl sources all_articles
  = all_articles
    ++ (sources ≫= λ s, match crawl s with Ok l => l | Raise _ => [] end).
Proof.
  induction sources as [|s sources IH]; intros acc; simpl.
  - by rewrite app_nil_r.
  - destruct (crawl s) as [l|e]; rewrite IH; [by rewrite app_assoc|done].
Qed.

Lemma crawl_all_sources crawl top_n a :
  a ∈ crawl_all crawl top_n → ∃ s l, s ∈ SOURCES ∧ crawl s = Ok l ∧ a ∈ l.
Proof.
  unfold crawl_all. rewrite crawl_loop_app. intros Ha%select_subseteq.
  apply list_elem_of_bind in Ha as (s & Ha & Hs).
  destruct (crawl s) as [l|e] eqn:Hcrawl; [by exists s, l|].
  by apply elem_of_nil in Ha.
Qed.

(** The candidates of a crawl are what the sources whose crawl returned
    gave, in the order of [SOURCES]; a source whose crawl raised adds
    nothing and takes nothing away from the others.  So every selected
    article was returned by a source of [SOURCES]. *)
Theorem crawl_all_isolates_failures
    (crawl : Source → result (list Article)) (top_n : Z) :
  crawl_all crawl top_n
  = select (SOURCES ≫= λ s, match crawl s with Ok l => l | Raise _ => [] end)
      top_n
  ∧ ∀ a, a ∈ crawl_all crawl top_n →
         ∃ s l, s ∈ SOURCES ∧ crawl s = Ok l ∧ a ∈ l.
Proof.
  split; [|apply crawl_all_sources].
  unfold crawl_all. by rewrite crawl_loop_app.
Qed.

(** *** One source *)

Lemma str_take_length n : ∀ s, (String.length (str_take n s) ≤ n)%nat.
Proof.
  induction n as [|n IH]; intros [|c s]; simpl; try lia.
  specialize (IH s). lia.
Qed.

Lemma parse_tags_length entry : (length (parse_tags entry) ≤ 8)%nat.
Proof. unfold parse_tags. rewrite length_take. lia. Qed.

Lemma crawl_entry_article web source i entry url a :
  url ≠ EmptyString →
  crawl_entry web source i entry url = Ok a →
  crawled_from web source a ∧ Fetcher.url a = url.
Proof.
  intros Hurl. unfold crawl_entry.
  destruct (estimate_popularity _ _ _ _) as [[score comments]|] eqn:Hscore;
    cbn [mbind result_bind]; [|done].
  intros [= <-]. apply ScoreBounds.comment_count_nonneg in Hscore.
  unfold crawled_from. simpl.
  repeat split; try done; [apply str_take_length|apply parse_tags_length].
Qed.

Lemma links_cons entry entries :
  links (entry :: entries)
  = if decide (default EmptyString (entry_link entry) = EmptyString)
    then links entries
    else default EmptyString (entry_link entry) :: links entries.
Proof.
  unfold links. rewrite fmap_cons, filter_cons.
  by destruct (decide (default EmptyString (entry_link entry) = EmptyString));
    [rewrite decide_False by (by intros ?)|rewrite decide_True by done].
Qed.

Lemma crawl_entries_articles web source entries : ∀ i articles arts,
  crawl_entries web source i entries articles = Ok arts →
  ∃ new, arts = articles ++ new
         ∧ Forall (crawled_from web source) new
         ∧ url <$> new = links entries.
Proof.
  induction entries as [|entry entries IH]; intros i acc arts;
    cbn [crawl_entries].
  - intros [= <-]. exists []. by rewrite app_nil_r.
  - rewrite links_cons. case_decide as Hurl.
    + intros (new & -> & Hnew & Hurls)%IH. by exists new.
    + destruct (crawl_entry _ _ _ _ _) as [a|] eqn:Ha;
        cbn [mbind result_bind]; [|done].
      apply crawl_entry_article in Ha as [Ha Haurl]; [|done].
      intros (new & -> & Hnew & Hurls)%IH. exists (a :: new).
      rewrite <- app_assoc. split; [done|]. split; [by constructor|].
      by rewrite fmap_cons, Haurl, Hurls.
Qed.

Lemma links_length entries : (length (links entries) ≤ length entries)%nat.
Proof.
  unfold links. etrans; [apply length_filter|]. by rewrite length_fmap.
Qed.

Lemma crawl_source_from web source articles :
  crawl_source web source = Ok articles →
  Forall (crawled_from web source) articles
  ∧ url <$> articles = links (take 20 (entries (parse_feed web source))).
Proof.
  unfold crawl_source. intros Hcrawl.
  assert (crawl_entries web source 0 (take 20 (entries (parse_feed web source))) []
          = Ok articles) as Hentries.
  { by destruct (bozo _), (entries _). }
  by apply crawl_entries_articles in Hentries as (new & -> & Hnew & Hurls).
Qed.

(** A crawl of one source that returns gives at most 20 articles: one for
    each of the first 20 entries of the feed that has a link, in the order
    of the feed, each with the name, logo and category of the source, the
    id made of the source name and the link, a description of at most 1500
    characters, at most 8 tags, a comment count that is not negative, and
    the status [pending]. *)
Theorem crawl_source_articles (web : Web) (source : Source)
    (articles : list Article) :
  crawl_source web source = Ok articles →
  (length articles ≤ 20)%nat
  ∧ Forall (crawled_from web source) articles
  ∧ url <$> articles = links (take 20 (entries (parse_feed web source))).
Proof.
  intros [Hfrom Hurls]%crawl_source_from. split; [|done].
  rewrite <- (length_fmap url), Hurls.
  etrans; [apply links_length|]. rewrite length_take. lia.
Qed.

Lemma crawl_source_articles_scenario :
  ∃ articles,
    Crawler.crawl_source Samples.offline_web Samples.dezeen = Ok articles
    ∧ (length articles ≤ 20)%nat
    ∧ Forall (crawled_from Samples.offline_web Samples.dezeen) articles
    ∧ url <$> articles
      = links (take 20 (entries (parse_feed Samples.offline_web Samples.dezeen))).
Proof.
  eexists. split; [by vm_compute|].
  apply crawl_source_articles. by vm_compute.
Defined.

(** *** A score that cannot be computed *)

Lemma crawl_entries_raise web source entries : ∀ i articles j entry url e,
  entries !! j = Some entry →
  entry_link entry = Some url → url ≠ EmptyString →
  estimate_popularity (clock_at web (i + j)) (entry_times entry)
    (scoring_view <$> safe_get web url) source = Raise e →
  ∃ e', crawl_entries web source i entries articles = Raise e'.
Proof.
  induction entries as [|first entries IH]; intros i acc j entry url e Hj Hlink Hurl He;
    [done|].
  cbn [crawl_entries]. destruct j as [|j].
  - injection Hj as ->. rewrite Hlink. cbn [from_option Datatypes.id].
    rewrite decide_False by done. unfold crawl_entry.
    rewrite Nat.add_0_r in He. rewrite He. cbn [mbind result_bind]. eauto.
  - replace (i + S j)%nat with (S i + j)%nat in He by lia.
    case_decide; [by eapply IH|].
    destruct (crawl_entry _ _ _ _ _) as [a|e0]; cbn [mbind result_bind];
      [by eapply IH|eauto].
Qed.

(** When the score of one linked entry among the first 20 of a feed cannot
    be computed, the crawl of that source raises, and the run goes on
    without any article of it: every selected article is one that another
    source returned. *)
Theorem unscorable_entry_loses_source (web : Web) (source : Source)
    (j : nat) (entry : FeedEntry) (url : string) (e : exn) (top_n : Z) :
  take 20 (entries (parse_feed web source)) !! j = Some entry →
  entry_link entry = Some url → url ≠ EmptyString →
  estimate_popularity (clock_at web j) (entry_times entry)
    (scoring_view <$> safe_get web url) source = Raise e →
  (∃ e', crawl_source web source = Raise e')
  ∧ ∀ a, a ∈ crawl_all (crawl_source web) top_n →
         ∃ s, s ∈ SOURCES ∧ s ≠ source ∧ source_name a = name s.
Proof.
  intros Hj Hlink Hurl He.
  assert (∃ e', crawl_source web source = Raise e') as [e' Hraise].
  { unfold crawl_source.
    destruct (crawl_entries_raise web source _ 0 [] j entry url e
                Hj Hlink Hurl He) as [e' He'].
    rewrite He'. destruct (entries (parse_feed web source)) as [|first rest];
      [by rewrite take_nil in Hj|].
    exists e'. by destruct (bozo _). }
  split; [by exists e'|]. intros a Ha.
  apply crawl_all_sources in Ha as (s & l & Hs & Hl & Ha).
  exists s. split; [done|]. split; [by intros ->; rewrite Hraise in Hl|].
  apply crawl_source_from in Hl as [Hl _].
  rewrite Forall_forall in Hl. by destruct (Hl a Ha) as (_ & ? & _).
Qed.

Lemma unscorable_entry_scenario :
  (∃ e', crawl_source Samples.flooded_web Samples.archdaily = Raise e')
  ∧ ∀ a, a ∈ crawl_all (crawl_source Samples.flooded_web) 5 →
         ∃ s, s ∈ SOURCES ∧ s ≠ Samples.archdaily ∧ source_name a = name s.
Proof.
  apply (unscorable_entry_loses_source Samples.flooded_web Samples.archdaily
           0 (Samples.feed_entry (Some "https://example.org/1"))
           "https://example.org/1" OverflowError 5); by vm_compute.
Defined.

(** *** Image and description *)

Lemma media_image_http media u :
  media_image media = Some u → startswith u "http".
Proof.
  induction media as [|m media IH]; simpl; [done|].
  destruct (startswith (default EmptyString (media_url m)) "http") eqn:Hhttp;
    [|done].
  intros Hu. rewrite Hu in Hhttp. cbn [from_option Datatypes.id] in Hhttp.
  by apply Is_true_true.
Qed.

(** The image of an article is taken from the feed entry before the page:
    a media URL that starts with [http] wins, then the [href] of the first
    enclosure with [image] in its type.  That enclosure decides even
    without an [href]: the image is then empty, whatever the page and the
    summary hold.  In both cases the page is not looked at. *)
Theorem extract_image_prefers_feed (web : Web) (entry : FeedEntry)
    (soup : option Document) :
  (∀ u, entry_media_content entry ≫= media_image = Some u →
        extract_image web entry soup = u ∧ startswith u "http")
  ∧ (∀ h, entry_media_content entry ≫= media_image = None →
          entry_enclosures entry ≫= enclosure_image = Some h →
          extract_image web entry soup = h)
  ∧ (∀ enc rest,
       entry_media_content entry ≫= media_image = None →
       entry_enclosures entry = Some (enc :: rest) →
       contains "image" (default EmptyString (enclosure_type enc)) →
       enclosure_href enc = None →
       extract_image web entry soup = EmptyString)
  ∧ (is_Some (entry_media_content entry ≫= media_image)
     ∨ is_Some (entry_enclosures entry ≫= enclosure_image) →
     extract_image web entry soup = extract_image web entry None).
Proof.
  unfold extract_image. split; [|split; [|split]].
  - intros u Hu. rewrite Hu. split; [done|].
    destruct (entry_media_content entry) as [media|]; [|done].
    by eapply media_image_http.
  - by intros h -> ->.
  - intros enc rest -> -> Himage Hhref. simpl.
    destruct (contains _ _); [|done]. by rewrite Hhref.
  - intros [[u ->]|[h Hh]]; [done|]. rewrite Hh.
    by destruct (entry_media_content entry ≫= media_image).
Qed.

Lemma first_paragraphs_found doc selectors : ∀ raw raw',
  (∃ sel, sel ∈ selectors ∧ select_texts doc sel ≠ []) →
  first_paragraphs doc selectors raw = first_paragraphs doc selectors raw'.
Proof.
  induction selectors as [|sel selectors IH]; intros raw raw' (sel' & Hin & Hsel).
  - by apply elem_of_nil in Hin.
  - simpl. destruct (select_texts doc sel) as [|p paras] eqn:Hparas; [|done].
    apply IH. exists sel'. split; [|done].
    apply elem_of_cons in Hin as [->|Hin]; [done|done].
Qed.

(** A description has at most 1500 characters.  A summary of 100 characters
    or more is used without looking at the page; a shorter one is dropped,
    not extended, as soon as one of the paragraph selectors matches on the
    page. *)
Theorem extract_description_sources (web : Web) (entry : FeedEntry)
    (soup : option Document) :
  (String.length (extract_description web entry soup) ≤ 1500)%nat
  ∧ ((100 ≤ String.length (default EmptyString (entry_summary entry)))%nat →
     extract_description web entry soup = extract_description web entry None)
  ∧ (∀ doc entry',
       soup = Some doc →
       (String.length (default EmptyString (entry_summary entry)) < 100)%nat →
       (String.length (default EmptyString (entry_summary entry')) < 100)%nat →
       (∃ sel, sel ∈ paragraph_selectors ∧ select_texts doc sel ≠ []) →
       extract_description web entry soup
       = extract_description web entry' soup).
Proof.
  unfold extract_description. split; [apply str_take_length|]. split.
  - intros Hlong. destruct soup as [doc|]; [|done].
    by rewrite decide_False by lia.
  - intros doc entry' -> Hshort Hshort' Hsel.
    rewrite !decide_True by done.
    by rewrite (first_paragraphs_found doc _ _
                  (default EmptyString (entry_summary entry')) Hsel).
Qed.

End CrawlFacts.

(** ** The rewrite of a batch *)

Module RewriterFacts.
Import Fetcher Rewriter.

Lemma rewrite_outcome service a b :
  rewrite service a = Ok b →
  (∃ t d, b = set_status "rewritten" (set_rewritten t d a))
  ∨ b = set_status "rewrite_failed" a.
Proof.
  unfold rewrite. destruct (service a) as [[title description]|e].
  - intros [= <-]. left. eauto.
  - case_decide; [|done]. intros [= <-]. by right.
Qed.

(** A batch that comes back from the rewriter has the articles of the batch
    that went in, one for one and in order.  An article that was already
    rewritten is untouched; any other one differs from the original in its
    rewritten title, rewritten description and status at most, and its
    status is [rewritten] or, with the two texts as they were,
    [rewrite_failed]. *)
Theorem rewrite_batch_outcome (service : Service)
    (articles rewritten : list ArticleDict) :
  rewrite_batch service articles = Ok rewritten →
  Forall2
    (λ a b,
       (dict_status a = "rewritten" → b = a)
       ∧ (dict_status a ≠ "rewritten" →
          (∃ t d, b = set_status "rewritten" (set_rewritten t d a))
          ∨ b = set_status "rewrite_failed" a))
    articles rewritten.
Proof.
  unfold rewrite_batch. revert rewritten.
  induction articles as [|a articles IH]; intros rewritten; cbn [for_each].
  - intros [= <-]. constructor.
  - case_decide as Hdone; cbn [mbind result_bind].
    + destruct (for_each _ articles) as [rest|]; cbn [mbind result_bind]; [|done].
      intros [= <-]. constructor; [|by apply IH]. by split.
    + destruct (rewrite service a) as [b|] eqn:Hb; cbn [mbind result_bind]; [|done].
      destruct (for_each _ articles) as [rest|]; cbn [mbind result_bind]; [|done].
      intros [= <-]. constructor; [|by apply IH].
      split; [done|]. intros _. by eapply rewrite_outcome.
Qed.

Lemma rewrite_batch_outcome_scenario :
  Forall2
    (λ a b,
       (dict_status a = "rewritten" → b = a)
       ∧ (dict_status a ≠ "rewritten" →
          (∃ t d, b = set_status "rewritten" (set_rewritten t d a))
          ∨ b = set_status "rewrite_failed" a))
    [Samples.candidate "A" "pending"; Samples.candidate "B" "rewritten"]
    [set_status "rewrite_failed" (Samples.candidate "A" "pending");
     Samples.candidate "B" "rewritten"].
Proof.
  apply (rewrite_batch_outcome (λ _, Raise APIError)). by vm_compute.
Defined.

(** The rewrite of a batch returns exactly when, for every article that is
    not yet rewritten, the call to the service returns or raises one of the
    two exceptions that are caught: such a failure does not stop the other
    articles, any other exception ends the batch. *)
Theorem rewrite_batch_returns_iff (service : Service)
    (articles : list ArticleDict) :
  (∃ rewritten, rewrite_batch service articles = Ok rewritten)
  ↔ Forall
      (λ a, dict_status a = "rewritten"
            ∨ ∀ e, service a = Raise e → e = JSONDecodeError ∨ e = APIError)
      articles.
Proof.
  unfold rewrite_batch.
  induction articles as [|a articles IH]; cbn [for_each].
  - split; [constructor|eauto].
  - rewrite Forall_cons, <- IH. clear IH.
    case_decide as Hdone; cbn [mbind result_bind].
    + destruct (for_each _ articles) as [rest|e]; cbn [mbind result_bind].
      * split; [intros _; split; eauto|eauto].
      * split; [by intros [? ?]|by intros [_ [? ?]]].
    + unfold rewrite. destruct (service a) as [[title description]|e] eqn:Hcall.
      * cbn [mbind result_bind].
        destruct (for_each _ articles) as [rest|e]; cbn [mbind result_bind].
        -- split; [intros _; split; [by right|eauto]|eauto].
        -- split; [by intros [? ?]|by intros [_ [? ?]]].
      * case_decide as Hcaught; cbn [mbind result_bind].
        -- destruct (for_each _ articles) as [rest|e']; cbn [mbind result_bind].
           ++ split; [intros _; split; [|eauto]|eauto].
              right. by intros e' [= <-].
           ++ split; [by intros [? ?]|by intros [_ [? ?]]].
        -- split; [by intros [? ?]|].
           intros [[?|Hall] _]; [done|]. by destruct (Hcaught (Hall e eq_refl)).
Qed.

End RewriterFacts.

(** ** What a merge keeps, and whole runs *)

Module RunFacts.
Import Fetcher Storage Rewriter Scheduler.

(** A merge keeps the records of the store as they are and in their order:
    the result is the new records that survive followed by a front part of
    the store, and a record of the result whose id was in the store is a
    record of the store, with the publication time it had. *)
Theorem merge_keeps_store_records (new existing : list ArticleDict) :
  merge new existing
  = take 150 (truly_new new existing)
    ++ take (150 - length (truly_new new existing)) existing
  ∧ ∀ r, r ∈ merge new existing → dict_id r ∈ dict_id <$> existing →
         r ∈ existing.
Proof.
  split; [unfold merge, retention; apply take_app|].
  intros r Hr Hid. unfold merge in Hr.
  eapply elem_of_sublist in Hr; [|apply sublist_take].
  apply elem_of_app in Hr as [Hnew|Hold]; [|done].
  by apply SchedulerFacts.elem_of_truly_new in Hnew as [_ Hfresh].
Qed.

Lemma archive_previous_state w st :
  archival_passes w st →
  ∃ st', archive_previous w st = (Ok (), st')
         ∧ raw_file st' = raw_file st
         ∧ rewritten_file st' = rewritten_file st
         ∧ published_file st' = published_file st
         ∧ archive st'
           = match published_file st with
             | Some pub => <[archive_name (utc_date w) := pub]> (archive st)
             | None => archive st
             end.
Proof.
  unfold archive_previous. intros [Hnone|Hok].
  - rewrite Hnone. by eexists.
  - destruct (published_file st) as [pub|] eqn:Hpub; [|by eexists].
    rewrite Hok. by eexists.
Qed.




(** With an API key, when the rewrite of the selection ends with an
    exception (one that the rewriter does not catch), the run ends with it:
    the selection is in the raw file, and neither the file of the rewritten
    batch nor the store is written. *)
Theorem run_aborted_by_service (w : World) (st : State) (e : exn) :
  truthy (api_key w) = true →
  archival_passes w st →
  rewrite_batch (service w)
    (asdict <$> crawl_all (crawl_source w) articles_per_day) = Raise e →
  ∃ st',
    run_pipeline w st = (Raise e, st')
    ∧ raw_file st'
      = Some (asdict <$> crawl_all (crawl_source w) articles_per_day)
    ∧ rewritten_file st' = rewritten_file st
    ∧ published_file st' = published_file st.
Proof.
  intros Hkey Harch Hbatch. unfold run_pipeline.
  destruct (archive_previous_state w
              (mkState (raw_file st) (rewritten_file st) (published_file st)
                 (archive st) (log st ++ [Started])) Harch)
    as (st1 & Hst1 & _ & Hrw1 & Hpub1 & _).
  unfold mbind at 1, io_bind at 1. cbn [info].
  unfold mbind at 1, io_bind at 1. rewrite Hst1.
  unfold mbind at 1, io_bind at 1. cbn [info]. cbv zeta.
  set (articles := crawl_all (crawl_source w) articles_per_day) in *.
  rewrite Hkey. unfold run_rewriter.
  destruct (decide (Z.of_nat (length articles) < min_articles));
    unfold mbind, io_bind, mret, io_ret, info, write_raw, read_raw, lift,
      write_rewritten, merge_with_published, write_published;
    cbn [raw_file rewritten_file published_file archive log];
    rewrite Hbatch; cbn [raw_file rewritten_file published_file archive log];
    (eexists; split; [reflexivity|]);
    cbn [raw_file rewritten_file published_file archive log];
    by rewrite Hpub1, Hrw1.
Qed.

Lemma run_aborted_by_service_scenario :
  ∃ st',
    run_pipeline
      (mkWorld (Some "key") "2026-01-01" "2026-01-01T07:00:00+00:00" None
         (λ _, Ok Samples.scenario) (λ _, Raise TypeError))
      Samples.state_with_store
    = (Raise TypeError, st')
    ∧ raw_file st'
      = Some (asdict <$> crawl_all (λ _, Ok Samples.scenario) articles_per_day)
    ∧ rewritten_file st' = None
    ∧ published_file st' = Some [Samples.published "X"].
Proof.
  apply (run_aborted_by_service
           (mkWorld (Some "key") "2026-01-01" "2026-01-01T07:00:00+00:00" None
              (λ _, Ok Samples.scenario) (λ _, Raise TypeError))
           Samples.state_with_store TypeError).
  - reflexivity.
  - by right.
  - by vm_compute.
Defined.




End RunFacts.

(** ** The other endpoints *)

Module QueryFacts.
Import Fetcher Scheduler Api.

(** *** One article *)



Lemma get_article_unique file r :
  NoDup (dict_id <$> load_published file) →
  r ∈ load_published file → get_article file (dict_id r) = Some r.
Proof.
  unfold get_article. intros Hnd Hr.
  destruct (list_find_elem_of (λ a, dict_id a = dict_id r) _ r Hr eq_refl)
    as [[k r'] Hfind].
  rewrite Hfind. simpl. f_equal.
  apply list_find_Some in Hfind as (Hk & Hid & _).
  apply list_elem_of_lookup in Hr as [j Hj].
  assert (k = j) as ->; [|congruence].
  eapply NoDup_lookup; [exact Hnd| |]; rewrite list_lookup_fmap.
  - by rewrite Hk.
  - rewrite Hj. simpl. by rewrite Hid.
Qed.


Lemma merge_ids_unique new existing :
  NoDup (dict_id <$> new) → NoDup (dict_id <$> existing) →
  NoDup (dict_id <$> merge new existing).
Proof.
  intros Hnew Hold.
  eapply sublist_NoDup; [|apply SchedulerFacts.merge_ids_sublist].
  apply NoDup_app. split; [|split; [apply SchedulerFacts.truly_new_fresh|done]].
  eapply sublist_NoDup; [exact Hnew|apply SchedulerFacts.truly_new_ids_sublist].
Qed.

(** After a merge of a batch and a store that each have pairwise distinct
    ids, every record that the merge kept is the answer to the lookup of
    its id. *)
Theorem merged_record_is_found (new existing : list ArticleDict)
    (r : ArticleDict) :
  NoDup (dict_id <$> new) → NoDup (dict_id <$> existing) →
  r ∈ merge new existing →
  get_article (Some (merge new existing)) (dict_id r) = Some r.
Proof.
  intros Hnew Hold Hr.
  apply get_article_unique; [|done]. by apply merge_ids_unique.
Qed.

Lemma merged_record_is_found_scenario :
  get_article
    (Some (merge [Samples.candidate "X" "rewritten"; Samples.candidate "Y" "rewritten"]
             [Samples.published "X"]))
    (dict_id (Samples.candidate "Y" "rewritten"))
  = Some (Samples.candidate "Y" "rewritten").
Proof.
  apply merged_record_is_found; [compute_done|compute_done|].
  vm_compute. left.
Defined.

(** *** Today and health *)

(** The articles of today are the records of the store whose publication
    time starts with the date, in the order of the store, and the count is
    their number; a record without publication time is among them only for
    an empty date.  After a run, every record that the run stamped and the
    merge kept is among them when the date is the start of the time of the
    run. *)
Theorem get_today_lists (file : option (list ArticleDict)) (today : string) :
  today_count (get_today file today) = length (today_articles (get_today file today))
  ∧ today_articles (get_today file today) `sublist_of` load_published file
  ∧ (∀ r, r ∈ today_articles (get_today file today)
          ↔ r ∈ load_published file
            ∧ startswith (default EmptyString (published_at_archyards r)) today)
  ∧ (∀ r, r ∈ today_articles (get_today file today) →
          published_at_archyards r = None → today = EmptyString)
  ∧ (∀ now rewritten r,
       startswith now today →
       r ∈ to_publish now rewritten → r ∈ load_published file →
       r ∈ today_articles (get_today file today)).
Proof.
  unfold get_today. cbn [today_count today_articles].
  split; [done|]. split; [apply sublist_filter|].
  split; [intros r; rewrite list_elem_of_filter; tauto|]. split.
  - intros r [Hstart _]%list_elem_of_filter Hnone. rewrite Hnone in Hstart.
    by destruct today.
  - intros now rewritten r Hnow Hr Hin. apply list_elem_of_filter.
    split; [|done].
    apply SchedulerFacts.elem_of_to_publish in Hr as (a & _ & _ & ->). done.
Qed.

(** The health probe counts the records of the store.  Its time of the
    last update is the publication time of the first record: after a merge
    that brought at least one new record it is the time of that run, and
    after a merge that brought none it is what it was before. *)
Theorem health_after_merge (now : string)
    (rewritten existing : list ArticleDict) :
  total_articles (health (Some (publish now rewritten existing)))
  = length (publish now rewritten existing)
  ∧ (truly_new (to_publish now rewritten) existing ≠ [] →
     last_updated (health (Some (publish now rewritten existing))) = Some now)
  ∧ (truly_new (to_publish now rewritten) existing = [] →
     last_updated (health (Some (publish now rewritten existing)))
     = last_updated (health (Some existing))).
Proof.
  unfold health, publish, merge, retention. cbn [total_articles last_updated].
  split; [done|]. split.
  - destruct (truly_new _ existing) as [|r new] eqn:Hnew; [done|]. intros _.
    assert (r ∈ truly_new (to_publish now rewritten) existing) as Hr
      by (rewrite Hnew; left).
    apply SchedulerFacts.elem_of_truly_new in Hr as [Hr _].
    by apply SchedulerFacts.elem_of_to_publish in Hr as (a & _ & _ & ->).
  - intros ->. simpl. by destruct existing.
Qed.

(** *** Sources *)

Lemma count_up_keys k counter :
  (count_up k counter).*1
  = if decide (k ∈ counter.*1) then counter.*1 else counter.*1 ++ [k].
Proof.
  induction counter as [|[k' n] counter IH]; cbn [count_up].
  - rewrite decide_False; [done|]. apply not_elem_of_nil.
  - rewrite fmap_cons. cbn [fst]. destruct (decide (k' = k)) as [->|Hne].
    + by rewrite decide_True by apply list_elem_of_here.
    + rewrite fmap_cons, IH. cbn [fst].
      destruct (decide (k ∈ counter.*1)) as [Hin|Hout].
      * by rewrite decide_True by (by apply list_elem_of_further).
      * rewrite decide_False; [done|].
        intros [->|?]%elem_of_cons; done.
Qed.

Lemma count_snoc (k s : string) (l : list string) :
  count s (l ++ [k]) = (count s l + if decide (k = s) then 1 else 0)%nat.
Proof.
  unfold count. rewrite filter_app, length_app. f_equal.
  rewrite filter_cons, filter_nil. by case_decide.
Qed.

Lemma elem_of_keys (k : string) (n : nat) (counter : list (string * nat)) :
  (k, n) ∈ counter → k ∈ counter.*1.
Proof. intros Hin. by apply (list_elem_of_fmap_2' fst _ (k, n)). Qed.

Lemma count_up_elem_of k counter s n :
  NoDup counter.*1 →
  (s, n) ∈ count_up k counter
  ↔ (s ≠ k ∧ (s, n) ∈ counter)
    ∨ (s = k ∧ ∃ m, n = S m ∧ ((k, m) ∈ counter ∨ (m = 0%nat ∧ k ∉ counter.*1))).
Proof.
  induction counter as [|[k' m] counter IH]; cbn [count_up]; intros Hnd.
  - rewrite list_elem_of_singleton. split.
    + intros [= -> ->]. right. split; [done|]. exists 0%nat. split; [done|].
      right. split; [done|]. apply not_elem_of_nil.
    + intros [[_ []%elem_of_nil]|[-> (m & -> & [[]%elem_of_nil|[-> _]])]]. done.
  - rewrite fmap_cons in Hnd. cbn [fst] in Hnd.
    apply NoDup_cons in Hnd as [Hk' Hnd]. specialize (IH Hnd).
    pose proof (elem_of_keys k' n counter) as Hkeys.
    destruct (decide (k' = k)) as [->|Hne].
    + repeat setoid_rewrite elem_of_cons. split.
      * intros [[= -> ->]|Hin].
        -- right. split; [done|]. exists m. split; [done|]. left. by left.
        -- left. split; [|by right]. intros ->. by apply elem_of_keys in Hin.
      * intros [[Hs [Heq|Hin]]|[-> (m' & -> & [[Heq|Hin]|[-> Hout]])]].
        -- by injection Heq as -> ->.
        -- by right.
        -- injection Heq as <-. by left.
        -- by apply elem_of_keys in Hin.
        -- exfalso. apply Hout. by left.
    + rewrite fmap_cons. cbn [fst]. repeat setoid_rewrite elem_of_cons.
      rewrite IH. split.
      * intros [[= -> ->]|[[Hs Hin]|[-> (m' & -> & Hcase)]]].
        -- left. split; [done|by left].
        -- left. split; [done|by right].
        -- right. split; [done|]. exists m'. split; [done|].
           destruct Hcase as [Hin|[-> Hout]]; [left; by right|right].
           split; [done|]. by intros [?|?].
      * intros [[Hs [Heq|Hin]]|[-> (m' & -> & Hcase)]].
        -- left. by injection Heq as -> ->.
        -- right. left. done.
        -- right. right. split; [done|]. exists m'. split; [done|].
           destruct Hcase as [[Heq|Hin]|[-> Hout]].
           ++ by injection Heq as -> ->.
           ++ by left.
           ++ right. split; [done|]. intros Hin. apply Hout. by right.
Qed.

Lemma count_up_sum k counter :
  sum_list (count_up k counter).*2 = S (sum_list counter.*2).
Proof.
  induction counter as [|[k' m] counter IH]; cbn [count_up]; [done|].
  case_decide; [done|]. rewrite !fmap_cons. cbn [snd sum_list sum_list_with].
  change (sum_list_with Datatypes.id ?l) with (sum_list l). rewrite IH. lia.
Qed.

Lemma Counter_snoc l k : Counter (l ++ [k]) = count_up k (Counter l).
Proof. unfold Counter. by rewrite foldl_app. Qed.

Lemma Counter_counts l :
  NoDup (Counter l).*1
  ∧ (∀ s n, (s, n) ∈ Counter l ↔ n = count s l ∧ (0 < n)%nat)
  ∧ sum_list (Counter l).*2 = length l.
Proof.
  induction l as [|k l (Hnd & Hc & Hsum)] using rev_ind.
  - split; [constructor|]. split; [|done].
    intros s n. split; [by intros []%elem_of_nil|]. intros [-> Hpos].
    unfold count in Hpos. simpl in Hpos. lia.
  - rewrite Counter_snoc.
    assert (k ∈ (Counter l).*1 ↔ (0 < count k l)%nat) as Hkey.
    { split.
      - intros ([k' n] & -> & Hin)%list_elem_of_fmap. simpl.
        by apply Hc in Hin as [<- ?].
      - intros Hpos. apply (list_elem_of_fmap_2' fst _ (k, count k l)); [|done].
        by apply Hc. }
    split; [|split].
    + rewrite count_up_keys. case_decide as Hin; [done|].
      apply NoDup_app. split; [done|]. split; [|apply NoDup_singleton].
      by intros s Hs ->%list_elem_of_singleton.
    + intros s n. rewrite (count_up_elem_of _ _ _ _ Hnd), count_snoc.
      split.
      * intros [[Hs Hin]|[-> (m & -> & [Hin|[-> Hout]])]].
        -- apply Hc in Hin as [-> Hpos]. rewrite decide_False by done. lia.
        -- apply Hc in Hin as [-> Hpos]. rewrite decide_True by done. lia.
        -- rewrite Hkey in Hout. rewrite decide_True by done. lia.
      * intros [-> Hpos]. destruct (decide (k = s)) as [->|Hne].
        -- right. split; [done|]. exists (count s l). split; [lia|].
           destruct (count s l) as [|c] eqn:Hcount.
           ++ right. split; [done|]. rewrite Hkey. lia.
           ++ left. apply Hc. lia.
        -- left. split; [done|]. apply Hc. lia.
    + rewrite count_up_sum, Hsum, length_app. simpl. lia.
Qed.

Lemma insert_by_perm {A} (key : A → nat) a l : insert_by key a l ≡ₚ a :: l.
Proof.
  induction l as [|b l IH]; simpl; [done|].
  case_decide; [|done]. rewrite IH. apply Permutation_swap.
Qed.

Lemma sorted_desc_perm {A} (key : A → nat) l : sorted_desc key l ≡ₚ l.
Proof.
  induction l as [|a l IH]; simpl; [done|].
  by rewrite insert_by_perm, IH.
Qed.

Lemma insert_by_sorted {A} (key : A → nat) a l :
  StronglySorted (λ x y, (key y ≤ key x)%nat) l →
  StronglySorted (λ x y, (key y ≤ key x)%nat) (insert_by key a l).
Proof.
  induction 1 as [|b l Hl IH Hb]; simpl.
  - repeat constructor.
  - case_decide as Hlt.
    + constructor; [done|]. rewrite insert_by_perm. constructor; [lia|done].
    + constructor; [by constructor|]. constructor; [lia|].
      eapply Forall_impl; [exact Hb|]. intros c Hc. simpl in *. lia.
Qed.

Lemma sorted_desc_sorted {A} (key : A → nat) l :
  StronglySorted (λ x y, (key y ≤ key x)%nat) (sorted_desc key l).
Proof.
  induction l as [|a l IH]; simpl; [constructor|]. by apply insert_by_sorted.
Qed.

Lemma count_fmap {A} (f : A → string) s (l : list A) :
  count s (f <$> l) = length (filter (λ a, f a = s) l).
Proof.
  unfold count. induction l as [|a l IH]; [done|].
  rewrite fmap_cons, !filter_cons. case_decide; simpl; by rewrite IH.
Qed.

(** The sources are listed once each, with the number of their articles in
    the store, which is never 0; the list is in descending order of these
    numbers, and they add up to the number of articles in the store. *)
Theorem get_sources_counts (file : option (list ArticleDict)) :
  NoDup (get_sources file).*1
  ∧ (∀ s n, (s, n) ∈ get_sources file
            ↔ n = length (filter (λ a, source_name (fields a) = s)
                            (load_published file))
              ∧ (0 < n)%nat)
  ∧ StronglySorted (λ x y, (y.2 ≤ x.2)%nat) (get_sources file)
  ∧ sum_list (get_sources file).*2 = length (load_published file).
Proof.
  unfold get_sources, most_common.
  set (names := (λ a, source_name (fields a)) <$> load_published file).
  destruct (Counter_counts names) as (Hnd & Hc & Hsum).
  split; [by rewrite sorted_desc_perm|].
  split; [intros s n; rewrite sorted_desc_perm, Hc; unfold names;
          by rewrite count_fmap|].
  split; [apply sorted_desc_sorted|].
  rewrite sorted_desc_perm, Hsum. unfold names. by rewrite length_fmap.
Qed.

(** *** The listing *)







End QueryFacts.

(** ** The text handed to the JSON parser *)

Module ReplyFacts.
Import Py Rewriter.

Lemma is_prefix_app (p l : list ascii) : is_prefix p (p ++ l) = true.
Proof. induction p as [|c p IH]; [done|]. cbn. by rewrite bool_decide_eq_true_2. Qed.

Lemma split_from_nonempty (sep : list ascii) (skip : nat) (piece l : list ascii) :
  split_from sep skip piece l ≠ [].
Proof.
  revert skip piece. induction l as [|c l IH]; intros skip piece; [done|].
  cbn. destruct skip; [|apply IH]. destruct (is_prefix sep (c :: l)); [done|apply IH].
Qed.

(** The text before the first fence is the first piece. *)
Lemma split_from_fence (body rest piece : list ascii) :
  "`"%char ∉ body →
  split_from fence 0 piece (body ++ fence ++ rest)
  = (reverse piece ++ body) :: split_from fence 0 [] rest.
Proof.
  revert piece. induction body as [|c body IH]; intros piece Hc.
  - rewrite app_nil_r. cbn. by destruct rest.
  - apply not_elem_of_cons in Hc as [Hne Hc].
    change (split_from fence 0 piece ((c :: body) ++ fence ++ rest))
      with (if is_prefix fence (c :: body ++ fence ++ rest)
            then reverse piece :: split_from fence (length fence - 1) [] (body ++ fence ++ rest)
            else split_from fence 0 (c :: piece) (body ++ fence ++ rest)).
    replace (is_prefix fence (c :: body ++ fence ++ rest)) with false.
    + rewrite IH by done. by rewrite reverse_cons, <- app_assoc.
    + cbn. by rewrite bool_decide_eq_false_2.
Qed.

(** The same for a fence that is never closed. *)
Lemma split_from_open (body piece : list ascii) :
  "`"%char ∉ body →
  split_from fence 0 piece body = [reverse piece ++ body].
Proof.
  revert piece. induction body as [|c body IH]; intros piece Hc.
  - by rewrite app_nil_r.
  - apply not_elem_of_cons in Hc as [Hne Hc].
    change (split_from fence 0 piece (c :: body))
      with (if is_prefix fence (c :: body)
            then reverse piece :: split_from fence (length fence - 1) [] body
            else split_from fence 0 (c :: piece) body).
    replace (is_prefix fence (c :: body)) with false.
    + rewrite IH by done. by rewrite reverse_cons, <- app_assoc.
    + cbn. by rewrite bool_decide_eq_false_2.
Qed.

Lemma split_opening_fence (l : list ascii) :
  split fence (fence ++ l) = [] :: split_from fence 0 [] l.
Proof. done. Qed.

(** [raw.split(fence)[1]] never raises an [IndexError]: the index is
    taken only when the reply starts with a fence, and the split then has at
    least two pieces.  So the text of every reply reaches [json.loads]. *)
Theorem unfence_returns (raw : list ascii) : is_Some (unfence raw).
Proof.
  unfold unfence. destruct (is_prefix fence raw) eqn:Hp; [|done].
  destruct raw as [|a [|b [|c rest]]]; cbn in Hp;
    repeat case_bool_decide; try done.
  replace (a :: b :: c :: rest) with (fence ++ rest) by (by subst a b c).
  rewrite split_opening_fence.
  pose proof (split_from_nonempty fence 0 [] rest) as Hne.
  destruct (split_from fence 0 [] rest); by cbn.
Qed.

(** A reply that starts with a fence, whose body holds no backquote:
    what the parser gets is the body, without a leading [json] and without
    the white space around it, whether the fence is closed (and whatever
    follows the closing fence) or left open. *)
Theorem fenced_reply (body tail : list ascii) :
  "`"%char ∉ body →
  let inner :=
    if is_prefix (list_ascii_of_string "json") body then drop 4 body else body in
  unfence (fence ++ body ++ fence ++ tail) = Some (str_strip inner)
  ∧ unfence (fence ++ body) = Some (str_strip inner).
Proof.
  intros Hc inner. unfold unfence.
  rewrite !is_prefix_app, !split_opening_fence.
  by rewrite (split_from_fence body tail), (split_from_open body).
Qed.

Lemma fenced_reply_scenario :
  unfence (list_ascii_of_string "```json
{}
```
Done.") = Some (list_ascii_of_string "{}").
Proof.
  refine (proj1 (fenced_reply (list_ascii_of_string "json
{}
") (list_ascii_of_string "
Done.") _)).
  vm_compute. intros H. repeat (apply elem_of_cons in H as [H|H]; [done|]).
  by apply elem_of_nil in H.
Defined.

(** A fence with another language name is not recognised as JSON: the name
    stays in the text. *)
Lemma other_language_kept :
  unfence (list_ascii_of_string "```JSON {} ```")
  = Some (list_ascii_of_string "JSON {}").
Proof. done. Qed.

End ReplyFacts.
